(** * polargraph-optimizer: a shallow embedding of [process.py]

    The script reads a recorded stream of polargraph commands, groups it
    into glyphs (runs of instructions closed by a pen-up), removes glyphs
    whose hash was already seen, and reorders what is left with a greedy
    nearest-neighbour walk before printing it again.

    The script is Python 2 ([from __future__ import print_function], the
    integer division [len(glyphs) / 15] used as a [range] step, old-style
    classes).  The embedding follows CPython 2.7:
    - [str] is a byte string, modelled by [string];
    - integers are unbounded, modelled by [Z];
    - exceptions are an explicit [Raise] outcome;
    - objects that are mutated or compared by identity ([list] objects and
      [Glyph] instances handed to [reorder_greedy]) live in a store. *)

From Stdlib Require Import ZArith Ascii String List Lia.
From stdpp Require Import gmap strings list pretty sorting.

Open Scope Z_scope.

(** ** Outcomes of a computation *)

(** The exceptions the script can meet.  [OutOfFuel] is not a Python
    exception: it is what a bounded loop of the model returns when its
    bound is too small (lemma [reorder_greedy_fuel] shows that
    [reorder_greedy] never does). *)
Inductive exn :=
  | IndexError
  | TypeError
  | ValueError
  | SystemExit
  | OutOfFuel.

Global Instance exn_eq_dec : EqDecision exn.
Proof. solve_decision. Defined.

Inductive result (A : Type) :=
  | Ok (a : A)
  | Raise (e : exn).
Arguments Ok {A} a.
Arguments Raise {A} e.

Global Instance result_ret : MRet result := @Ok.
Global Instance result_bind : MBind result := λ A B f m,
  match m with
  | Ok a => f a
  | Raise e => Raise e
  end.

(** [try: body except e: handler] *)
Definition try_except {A} (body : result A) (e : exn) (handler : result A)
  : result A :=
  match body with
  | Ok a => Ok a
  | Raise e' => if decide (e' = e) then handler else Raise e'
  end.

(** State and exceptions: a computation takes the state and gives back an
    outcome together with the state it reached, also when it raises. *)
Definition M (S A : Type) : Type := S → result A * S.

Global Instance M_ret {S} : MRet (M S) := λ A a s, (Ok a, s).
Global Instance M_bind {S} : MBind (M S) := λ A B f m s,
  match m s with
  | (Ok a, s') => f a s'
  | (Raise e, s') => (Raise e, s')
  end.

Definition run {S A} (m : M S A) (s : S) : result A * S := m s.

Definition raise {S A} (e : exn) : M S A := λ s, (Raise e, s).
Definition lift {S A} (r : result A) : M S A := λ s, (r, s).

(** [for x in xs: body x] *)
Fixpoint for_ {S A} (xs : list A) (body : A → M S unit) : M S unit :=
  match xs with
  | [] => mret tt
  | x :: xs' => body x ;; for_ xs' body
  end.

(** A loop that carries local variables of type [B] from one iteration to
    the next. *)
Fixpoint for_acc {S A B} (xs : list A) (body : B → A → M S B) (b : B)
  : M S B :=
  match xs with
  | [] => mret b
  | x :: xs' => b' ← body b x; for_acc xs' body b'
  end.

(** ** The builtins of CPython 2.7 that the script calls *)

Module Py.

Definition ord (c : ascii) : Z := Z.of_N (N_of_ascii c).

(** [str.rstrip()] removes trailing space, tab, newline, vertical tab,
    form feed and carriage return. *)
Definition isspace (c : ascii) : bool :=
  (ord c =? 32) || ((9 <=? ord c) && (ord c <=? 13)).

Fixpoint rstrip (s : string) : string :=
  match s with
  | EmptyString => EmptyString
  | String c s' =>
      match rstrip s' with
      | EmptyString => if isspace c then EmptyString else String c EmptyString
      | r => String c r
      end
  end.

Fixpoint lstrip (s : string) : string :=
  match s with
  | EmptyString => EmptyString
  | String c s' => if isspace c then lstrip s' else s
  end.

(** [s.split(sep)] for a one-character separator: always at least one
    field. *)
Fixpoint split (sep : ascii) (s : string) : list string :=
  match s with
  | EmptyString => [EmptyString]
  | String c s' =>
      if decide (c = sep) then EmptyString :: split sep s'
      else match split sep s' with
           | p :: ps => String c p :: ps
           | [] => [String c EmptyString]
           end
  end.

(** [sep.join(l)] *)
Fixpoint join (sep : string) (l : list string) : string :=
  match l with
  | [] => EmptyString
  | [s] => s
  | s :: l' => s +:+ sep +:+ join sep l'
  end.

Definition digit (c : ascii) : option Z :=
  if (48 <=? ord c) && (ord c <=? 57) then Some (ord c - 48) else None.

Fixpoint digits (acc : Z) (s : string) : option Z :=
  match s with
  | EmptyString => Some acc
  | String c s' =>
      match digit c with
      | Some d => digits (10 * acc + d) s'
      | None => None
      end
  end.

Definition unsigned (s : string) : result Z :=
  match s with
  | EmptyString => Raise ValueError
  | _ => match digits 0 s with
         | Some n => Ok n
         | None => Raise ValueError
         end
  end.

(** [int(s)]: surrounding whitespace, an optional sign, decimal digits;
    anything else is a [ValueError]. *)
Definition int (s : string) : result Z :=
  match lstrip (rstrip s) with
  | String "-"%char r => n ← unsigned r; Ok (- n)
  | String "+"%char r => unsigned r
  | r => unsigned r
  end.

(** [l[i]] with Python's negative indices. *)
Definition getitem {A} (l : list A) (i : Z) : result A :=
  let n := Z.of_nat (length l) in
  let j := if i <? 0 then i + n else i in
  if (j <? 0) || (n <=? j) then Raise IndexError
  else match l !! Z.to_nat j with
       | Some x => Ok x
       | None => Raise IndexError
       end.

(** [t[i]] where [t] is a pair of integers or [None]. *)
Definition subscript (t : option (Z * Z)) (i : Z) : result Z :=
  match t with
  | None => Raise TypeError
  | Some (x, y) =>
      if i =? 0 then Ok x
      else if i =? 1 then Ok y
      else Raise IndexError
  end.

(** The machine word of a C [long] on a 64-bit build. *)
Definition wrap64 (x : Z) : Z := (x + 2 ^ 63) `mod` 2 ^ 64 - 2 ^ 63.

Fixpoint hash_loop (x : Z) (s : string) : Z :=
  match s with
  | EmptyString => x
  | String c s' => hash_loop (Z.lxor (wrap64 (1000003 * x)) (ord c)) s'
  end.

(** [hash(s)] for a [str], as [string_hash] of CPython 2.7 computes it
    when hash randomisation is off (the default of Python 2):
    [x = s[0] << 7; for c in s: x = (1000003*x) ^ c; x ^= len(s)],
    and [-1] is replaced by [-2]. *)
Definition hash (s : string) : Z :=
  match s with
  | EmptyString => 0
  | String c _ =>
      let x := hash_loop (Z.shiftl (ord c) 7) s in
      let x := Z.lxor x (Z.of_nat (String.length s)) in
      if x =? -1 then -2 else x
  end.

(** [sum] of a list of integers *)
Definition sum (l : list Z) : Z := foldr Z.add 0 l.

(** [range(start, stop, step)] of Python 2: a list; a zero step is a
    [ValueError]. *)
Fixpoint range_up (n : nat) (start step : Z) : list Z :=
  match n with
  | O => []
  | S n' => start :: range_up n' (start + step) step
  end.

Definition range (start stop step : Z) : result (list Z) :=
  if step =? 0 then Raise ValueError
  else if 0 <? step then
    Ok (range_up (Z.to_nat ((stop - start + step - 1) `div` step)) start step)
  else
    Ok (range_up (Z.to_nat ((start - stop - step - 1) `div` (- step))) start step).

(** [sorted(l, key=key)]: the sort is stable, so its result is the one
    of a stable insertion sort. [leb a b] is [a <= b] on keys. *)
Fixpoint insert_by {A K} (leb : K → K → bool) (key : A → K) (x : A)
    (l : list A) : list A :=
  match l with
  | [] => [x]
  | y :: l' =>
      if leb (key x) (key y) then x :: y :: l'
      else y :: insert_by leb key x l'
  end.

Definition sorted {A K} (leb : K → K → bool) (key : A → K) (l : list A)
  : list A :=
  foldr (insert_by leb key) [] l.

(** Python 2 orders [None] below every tuple, and tuples
    lexicographically. *)
Definition coords_le (a b : option (Z * Z)) : bool :=
  match a, b with
  | None, _ => true
  | Some _, None => false
  | Some (x1, y1), Some (x2, y2) =>
      (x1 <? x2) || ((x1 =? x2) && (y1 <=? y2))
  end.

End Py.

(** ** class Instruction *)

Module Instruction.

Record t := mk {
  line : string;
  parts : list string;
  typecode : string;
  typename : string;
  coords : option (Z * Z)
}.

Definition types : gmap string string :=
  {[ "C13" := "pendown"; "C14" := "penup"; "C17" := "move" ]}%string.

Definition _typename (typecode : string) : string :=
  default "other"%string (types !! typecode).

(** [parts[1]] and [parts[2]] are read inside the [try]; only
    [ValueError] is caught. *)
Definition _coords (parts : list string) : result (option (Z * Z)) :=
  try_except
    (x ← Py.getitem parts 1 ≫= Py.int;
     y ← Py.getitem parts 2 ≫= Py.int;
     Ok (Some (x, y)))
    ValueError
    (Ok None).

Definition __init__ (raw : string) : result t :=
  let line := Py.rstrip raw in
  let parts := Py.split ","%char line in
  typecode ← Py.getitem parts 0;
  let typename := _typename typecode in
  coords ← _coords parts;
  Ok (mk line parts typecode typename coords).

Definition distance_to (self other : t) : result Z :=
  ox ← Py.subscript (coords other) 0;
  sx ← Py.subscript (coords self) 0;
  oy ← Py.subscript (coords other) 1;
  sy ← Py.subscript (coords self) 1;
  Ok (Z.max (Z.abs (ox - sx)) (Z.abs (oy - sy))).

End Instruction.

Global Instance Instruction_eq_dec : EqDecision Instruction.t.
Proof. solve_decision. Defined.

(** ** The two output channels *)

Record output := Output {
  stdout : list string;
  stderr : list string
}.

(** [print(s)] and [print(s, file=sys.stderr)]: one line each. *)
Definition print (s : string) : M output unit :=
  λ o, (Ok tt, Output (stdout o ++ [s]) (stderr o)).

Definition eprint (s : string) : M output unit :=
  λ o, (Ok tt, Output (stdout o) (stderr o ++ [s])).

(** ** class Glyph *)

Module Glyph.

Record t := mk {
  start : option (Z * Z);
  end_ : option (Z * Z);
  instructions : list Instruction.t
}.

(** The [try] of [__init__]: [start] is assigned before
    [instructions[-2]] is read, and the handler resets both. *)
Definition endpoints (instructions : list Instruction.t)
  : result (option (Z * Z) * option (Z * Z)) :=
  try_except
    (first ← Py.getitem instructions 0;
     last ← Py.getitem instructions (-2);
     Ok (Instruction.coords first, Instruction.coords last))
    IndexError
    (Ok (None, None)).

Definition __init__ (instructions : list Instruction.t) : M output t :=
  '(start, end_) ← lift (endpoints instructions);
  (if bool_decide (start = None) || bool_decide (end_ = None) then
     eprint "Problem with instruction set" ;;
     for_ instructions (λ i,
       eprint (Instruction.line i +:+ " (" +:+ Instruction.typename i +:+ ")"))
   else mret tt) ;;
  mret (mk start end_ instructions).

Definition distance_to (self other : t) : result Z :=
  ox ← Py.subscript (start other) 0;
  sx ← Py.subscript (end_ self) 0;
  oy ← Py.subscript (start other) 1;
  sy ← Py.subscript (end_ self) 1;
  Ok (Z.max (Z.abs (ox - sx)) (Z.abs (oy - sy))).

Definition newline : string := String (ascii_of_nat 10) EmptyString.

(** The raw lines of a glyph, in order. *)
Definition lines (g : t) : list string :=
  Instruction.line <$> instructions g.

Definition __hash__ (self : t) : Z :=
  Py.hash (Py.join newline (lines self)).

End Glyph.

Global Instance Glyph_eq_dec : EqDecision Glyph.t.
Proof. solve_decision. Defined.

(** ** Travel statistics *)

(** The inner generators [distance_between_each_pair] and
    [distance_between_moves] have the same body: [prev = next(xs)], then
    [prev.distance_to(x)] for each [x] that follows, [prev] moving along.
    [sum] consumes the generator, so the first exception raised by
    [distance_to] is the outcome. *)
Fixpoint distances_from {A} (distance_to : A → A → result Z) (prev : A)
    (rest : list A) : result (list Z) :=
  match rest with
  | [] => Ok []
  | x :: rest' =>
      d ← distance_to prev x;
      ds ← distances_from distance_to x rest';
      Ok (d :: ds)
  end.

(** On an empty sequence [next] raises [StopIteration] inside the
    generator, which in Python 2 ends the generator: nothing is yielded
    and the sum is [0]. *)
Definition distances {A} (distance_to : A → A → result Z) (xs : list A)
  : result (list Z) :=
  match xs with
  | [] => Ok []
  | prev :: rest => distances_from distance_to prev rest
  end.

Definition distance_between_each_pair (gs : list Glyph.t)
  : result (list Z) :=
  distances Glyph.distance_to gs.

Definition total_penup_travel (gs : list Glyph.t) : result Z :=
  ds ← distance_between_each_pair gs;
  Ok (Py.sum ds).

Definition iter_moves (gs : list Glyph.t) : list Instruction.t :=
  g ← gs;
  filter (λ i, Instruction.typename i = "move"%string) (Glyph.instructions g).

Definition distance_between_moves (moves : list Instruction.t)
  : result (list Z) :=
  distances Instruction.distance_to moves.

Definition total_travel (gs : list Glyph.t) : result Z :=
  ds ← distance_between_moves (iter_moves gs);
  Ok (Py.sum ds).

(** ** dedupe *)

(** The generator, with its local [seen]: a set of hash codes. *)
Fixpoint dedupe_from (seen : gset Z) (gs : list Glyph.t) : list Glyph.t :=
  match gs with
  | [] => []
  | g :: gs' =>
      let h := Glyph.__hash__ g in
      if decide (h ∉ seen) then g :: dedupe_from ({[h]} ∪ seen) gs'
      else dedupe_from seen gs'
  end.

Definition dedupe (gs : list Glyph.t) : list Glyph.t := dedupe_from ∅ gs.

(** ** print_glyphs *)

Definition print_glyphs (gs : list Glyph.t) : M output unit :=
  print "C14,END" ;;
  for_ gs (λ g,
    for_ (Glyph.instructions g) (λ i, print (Instruction.line i))).

(** ** The segmentation loop of the script *)

(** One iteration; the locals are [glyphs] and [chunk]. *)
Definition segment_step (st : list Glyph.t * list Instruction.t)
    (inst : Instruction.t) : M output (list Glyph.t * list Instruction.t) :=
  let '(glyphs, chunk) := st in
  let chunk := chunk ++ [inst] in
  if decide (Instruction.typename inst = "penup"%string) then
    if 1 <? Z.of_nat (length chunk) then
      g ← Glyph.__init__ chunk;
      mret (glyphs ++ [g], [])
    else mret (glyphs, [])
  else mret (glyphs, chunk).

Definition segment (instructions : list Instruction.t)
  : M output (list Glyph.t) :=
  st ← for_acc instructions segment_step ([], []);
  mret st.1.

(** ** The store: list objects and glyph objects *)

Definition loc := positive.

Inductive obj :=
  | OGlyph (g : Glyph.t)
  | OList (xs : list loc).

Abbreviation store := (gmap loc obj).

Definition alloc (o : obj) : M store loc :=
  λ σ, let l := fresh (dom σ) in (Ok l, <[l := o]> σ).

(** Reading a reference as a list, or as a glyph: a [TypeError] when the
    object is of the other class. *)
Definition read_list (l : loc) : M store (list loc) :=
  λ σ, match σ !! l with
       | Some (OList xs) => (Ok xs, σ)
       | _ => (Raise TypeError, σ)
       end.

Definition read_glyph (l : loc) : M store Glyph.t :=
  λ σ, match σ !! l with
       | Some (OGlyph g) => (Ok g, σ)
       | _ => (Raise TypeError, σ)
       end.

Definition write_list (l : loc) (xs : list loc) : M store unit :=
  λ σ, (Ok tt, <[l := OList xs]> σ).

(** [list(gs)]: a new list object with the same elements. *)
Definition list_ (gs : loc) : M store loc :=
  xs ← read_list gs;
  alloc (OList xs).

(** [len(l)] *)
Definition len (l : loc) : M store Z :=
  xs ← read_list l;
  mret (Z.of_nat (length xs)).

(** [l.pop(index)] *)
Definition pop (l : loc) (index : Z) : M store loc :=
  xs ← read_list l;
  let n := Z.of_nat (length xs) in
  let j := if index <? 0 then index + n else index in
  if (j <? 0) || (n <=? j) then raise IndexError
  else
    x ← lift (Py.getitem xs j);
    write_list l (delete (Z.to_nat j) xs) ;;
    mret x.

(** The position of the first element that is the object [x]. Instances
    of an old-style class without [__eq__] or [__cmp__] compare by
    identity. *)
Fixpoint index_of (x : loc) (xs : list loc) : option nat :=
  match xs with
  | [] => None
  | y :: xs' => if decide (y = x) then Some O else S <$> index_of x xs'
  end.

(** [l.remove(x)] *)
Definition remove (l : loc) (x : loc) : M store unit :=
  xs ← read_list l;
  match index_of x xs with
  | Some j => write_list l (delete j xs)
  | None => raise ValueError
  end.

(** [l.append(x)] *)
Definition append (l : loc) (x : loc) : M store unit :=
  xs ← read_list l;
  write_list l (xs ++ [x]).

(** [self.distance_to(other)] on two glyph objects. *)
Definition glyph_distance_to (self other : loc) : M store Z :=
  o ← read_glyph other;
  s ← read_glyph self;
  lift (Glyph.distance_to s o).

(** [min(xs, key=key)]: the key of every item is computed, the first one
    included, and an item replaces the best one only when its key is
    strictly smaller. *)
Fixpoint min_from {S} (key : loc → M S Z) (best : loc) (kbest : Z)
    (xs : list loc) : M S loc :=
  match xs with
  | [] => mret best
  | x :: xs' =>
      k ← key x;
      if k <? kbest then min_from key x k xs'
      else min_from key best kbest xs'
  end.

Definition min_key {S} (key : loc → M S Z) (xs : list loc) : M S loc :=
  match xs with
  | [] => raise ValueError
  | x :: xs' => k ← key x; min_from key x k xs'
  end.

(** ** reorder_greedy *)

(** The [while] loop, at most [fuel] iterations. *)
Fixpoint reorder_loop (fuel : nat) (gs ordered prev : loc) : M store unit :=
  n ← len gs;
  if 0 <? n then
    match fuel with
    | O => raise OutOfFuel
    | S fuel' =>
        xs ← read_list gs;
        nearest ← min_key (glyph_distance_to prev) xs;
        remove gs nearest ;;
        append ordered nearest ;;
        reorder_loop fuel' gs ordered nearest
    end
  else mret tt.

(** Every iteration removes one element, so the length of the list bounds
    the number of iterations. *)
Definition reorder_greedy (gs : loc) (index : Z) : M store loc :=
  gs ← list_ gs;
  fuel ← len gs;
  first ← pop gs index;
  ordered ← alloc (OList [first]);
  prev ← (xs ← read_list ordered; lift (Py.getitem xs 0));
  reorder_loop (Z.to_nat fuel) gs ordered prev ;;
  mret ordered.

(** ** The script *)

(** The script keeps glyphs in lists it never shares; for the call of
    [reorder_greedy] they are laid out in a store: one object per glyph
    and the list object that holds them. *)
Definition box (gs : list Glyph.t) : M store loc :=
  ls ← for_acc gs (λ ls g, l ← alloc (OGlyph g); mret (ls ++ [l])) [];
  alloc (OList ls).

Definition unbox (l : loc) : M store (list Glyph.t) :=
  ls ← read_list l;
  for_acc ls (λ gs l, g ← read_glyph l; mret (gs ++ [g])) [].

Definition reorder_greedy_boxed (gs : list Glyph.t) (index : Z)
  : result (list Glyph.t) :=
  (run (l ← box gs; r ← reorder_greedy l index; unbox r) ∅).1.

(** [print(label % value, file=sys.stderr)]: the value is computed first. *)
Definition report (label : string) (value : result Z) : M output unit :=
  d ← lift value;
  eprint (label +:+ pretty d).

(** The first loop: one [Instruction] per line of the input. *)
Definition read_instructions (input : list string)
  : M output (list Instruction.t) :=
  for_acc input
    (λ instructions line,
       i ← lift (Instruction.__init__ line);
       mret (instructions ++ [i])) [].

(** The first two loops: parsing, then segmentation. *)
Definition read_glyphs (input : list string) : M output (list Glyph.t) :=
  instructions ← read_instructions input;
  segment instructions.

Definition main (input : list string) : M output unit :=
  glyphs ← read_glyphs input;
  eprint ("Total Glyphs: " +:+ pretty (Z.of_nat (length glyphs))) ;;
  report "Initial penup distance: " (total_penup_travel glyphs) ;;
  report "Initial total distance: " (total_travel glyphs) ;;
  let glyphs := dedupe glyphs in
  report "Deduped penup distance: " (total_penup_travel glyphs) ;;
  report "Deduped total distance: " (total_travel glyphs) ;;
  let sorted_g := Py.sorted Py.coords_le Glyph.start glyphs in
  report "Sorted penup distance:  " (total_penup_travel sorted_g) ;;
  report "Sorted total distance: " (total_travel sorted_g) ;;
  let n := Z.of_nat (length glyphs) in
  starts ← lift (Py.range 0 n (n `div` 15));
  for_ starts (λ i,
    greedy ← lift (reorder_greedy_boxed glyphs i);
    report ("Greedy penup (i=" +:+ pretty i +:+ ") ") (total_penup_travel greedy) ;;
    report ("Greedy total (i=" +:+ pretty i +:+ ") ") (total_travel greedy) ;;
    print_glyphs greedy ;;
    raise SystemExit).

(** * Notions used to state the properties *)

(** ** Strings *)

(** Strings made of whitespace only, and the last character of a string. *)
Fixpoint all_space (s : string) : bool :=
  match s with
  | EmptyString => true
  | String c s' => Py.isspace c && all_space s'
  end.

Fixpoint last_char (s : string) : option ascii :=
  match s with
  | EmptyString => None
  | String c EmptyString => Some c
  | String _ s' => last_char s'
  end.

(** ** Chunks *)

(** The input cut after every pen-up: the chunks closed by a pen-up, each
    with its pen-up as last instruction, and the instructions that follow
    the last pen-up. *)
Definition is_penup (i : Instruction.t) : Prop :=
  Instruction.typename i = "penup"%string.

Fixpoint chunks (insts : list Instruction.t)
  : list (list Instruction.t) * list Instruction.t :=
  match insts with
  | [] => ([], [])
  | i :: insts' =>
      let '(cs, rest) := chunks insts' in
      if decide (is_penup i) then ([i] :: cs, rest)
      else match cs with
           | c :: cs' => ((i :: c) :: cs', rest)
           | [] => ([], i :: rest)
           end
  end.

(** The glyph of a chunk: it starts at the coordinates of the first
    instruction and ends at those of the last but one. *)
Definition glyph_of (chunk : list Instruction.t) : Glyph.t :=
  match chunk !! 0%nat, chunk !! (length chunk - 2)%nat with
  | Some first, Some last =>
      if decide (2 ≤ length chunk)%nat
      then Glyph.mk (Instruction.coords first) (Instruction.coords last) chunk
      else Glyph.mk None None chunk
  | _, _ => Glyph.mk None None chunk
  end.

(** ** First occurrences *)

(** The first occurrences in a list, two elements being the same when
    their keys are equal: the head is kept, and the elements with the key
    of the head are removed from what the tail keeps. *)
Fixpoint first_occurrences {A K} `{EqDecision K} (key : A → K) (l : list A)
  : list A :=
  match l with
  | [] => []
  | x :: l' => x :: filter (λ y, key y ≠ key x) (first_occurrences key l')
  end.

(** ** The greedy walk *)

(** A list without the first occurrence of [x]. *)
Definition remove_first (x : loc) (xs : list loc) : list loc :=
  match index_of x xs with
  | Some j => delete j xs
  | None => xs
  end.

(** The position that [l[index]] and [l.pop(index)] read, for a list of
    length [n]. *)
Definition position (n : nat) (index : Z) : nat :=
  Z.to_nat (if index <? 0 then index + Z.of_nat n else index).

(** What is left of [xs] once the element at position [j] and then the
    glyphs of [visited], one after the other, were taken out. *)
Definition unvisited (xs : list loc) (j : nat) (visited : list loc)
  : list loc :=
  foldl (λ rem v, remove_first v rem) (delete j xs) visited.

(** A glyph object whose start and end are both present. *)
Definition well_formed (σ : store) (x : loc) : Prop :=
  ∃ g s e, σ !! x = Some (OGlyph g)
           ∧ Glyph.start g = Some s ∧ Glyph.end_ g = Some e.

(** The outcome of [p.distance_to(x)] in the store [σ]. *)
Definition glyph_dist (σ : store) (p x : loc) : result Z :=
  (run (glyph_distance_to p x) σ).1.

(** [c] is the first of the glyphs of [rem] that are nearest to [p]: the
    glyphs before it are strictly farther, the glyphs after it are not
    nearer. *)
Definition first_nearest (σ : store) (p c : loc) (rem : list loc) : Prop :=
  ∃ before after dc,
    rem = before ++ c :: after
    ∧ glyph_dist σ p c = Ok dc
    ∧ (∀ x, x ∈ before → ∃ dx, glyph_dist σ p x = Ok dx ∧ dc < dx)
    ∧ (∀ x, x ∈ after → ∃ dx, glyph_dist σ p x = Ok dx ∧ dc ≤ dx).

(** The distance as a number, for the glyphs on which it is one. *)
Definition dist_of (σ : store) (p x : loc) : Z :=
  match glyph_dist σ p x with
  | Ok d => d
  | Raise _ => 0
  end.

(** The walk of the loop as a function of the distances: the first of the
    nearest items, and the items visited from [prev] on. *)
Fixpoint argmin_from (f : loc → Z) (best : loc) (xs : list loc) : loc :=
  match xs with
  | [] => best
  | x :: xs' =>
      if f x <? f best then argmin_from f x xs' else argmin_from f best xs'
  end.

Fixpoint nn_path (d : loc → loc → Z) (n : nat) (prev : loc) (rem : list loc)
  : list loc :=
  match rem, n with
  | x :: xs', S n' =>
      let c := argmin_from (d prev) x xs' in
      c :: nn_path d n' c (remove_first c rem)
  | _, _ => []
  end.

(** ** Stores *)

(** The store of the loop is the caller's store [σ] with the two lists of
    the call added. *)
Definition extends (σ : store) (gs ordered : loc) (τ : store) : Prop :=
  ∀ l, l ≠ gs → l ≠ ordered → τ !! l = σ !! l.

(** What every iteration keeps: only the two lists of the call differ
    from the caller's store, and together they hold the glyphs of the
    caller's list [xs]. *)
Definition loop_inv (σ : store) (gs ordered : loc) (xs : list loc)
    (τ : store) : Prop :=
  extends σ gs ordered τ
  ∧ ∃ rem acc, τ !! gs = Some (OList rem)
               ∧ τ !! ordered = Some (OList acc)
               ∧ acc ++ rem ≡ₚ xs.

(** The glyph a reference stands for (an empty glyph where the reference
    is not one of a glyph object). *)
Definition deref (σ : store) (l : loc) : Glyph.t :=
  match σ !! l with
  | Some (OGlyph g) => g
  | _ => Glyph.mk None None []
  end.

Definition is_glyph (σ : store) (l : loc) : Prop :=
  ∃ g, σ !! l = Some (OGlyph g).

(** ** Output *)

(** A computation that leaves the command stream as it is and does not
    exit, and one that moreover ends with an exception. *)
Definition calm {A} (m : M output A) : Prop :=
  ∀ o, stdout (run m o).2 = stdout o ∧ (run m o).1 ≠ Raise SystemExit.

Definition aborts {A} (m : M output A) : Prop :=
  ∀ o, stdout (run m o).2 = stdout o
       ∧ ∃ e, (run m o).1 = Raise e ∧ e ≠ SystemExit.

(** * Concrete inputs *)

(** The instructions that the parser builds from [C17,x,y,END],
    [C13,END] and [C14,END]. *)
Definition move_to (x y : Z) : Instruction.t :=
  let sx := pretty x in
  let sy := pretty y in
  Instruction.mk ("C17," +:+ sx +:+ "," +:+ sy +:+ ",END")
    ["C17"; sx; sy; "END"] "C17" "move" (Some (x, y)).

Definition pen_down : Instruction.t :=
  Instruction.mk "C13,END" ["C13"; "END"] "C13" "pendown" None.

Definition pen_up : Instruction.t :=
  Instruction.mk "C14,END" ["C14"; "END"] "C14" "penup" None.

(** A stroke from the point [(x, y)] back to itself, and its text. *)
Definition dot (x y : Z) : Glyph.t :=
  Glyph.mk (Some (x, y)) (Some (x, y))
    [move_to x y; pen_down; move_to x y; pen_up].

Definition dot_text (x y : Z) : list string :=
  [ "C17," +:+ pretty x +:+ "," +:+ pretty y +:+ ",END" +:+ Glyph.newline;
    "C13,END" +:+ Glyph.newline;
    "C17," +:+ pretty x +:+ "," +:+ pretty y +:+ ",END" +:+ Glyph.newline;
    "C14,END" +:+ Glyph.newline ].

(** A glyph that starts with its pen-down: its first instruction has no
    coordinates. *)
Definition no_start : Glyph.t :=
  Glyph.mk None (Some (1, 2)) [pen_down; move_to 1 2; pen_up].

Definition no_start_text : list string :=
  [ "C13,END" +:+ Glyph.newline;
    "C17,1,2,END" +:+ Glyph.newline;
    "C14,END" +:+ Glyph.newline ].

(** Two strokes that differ in the fourth field of their last move, and
    their text. *)
Definition stroke (tag : string) : Glyph.t :=
  Glyph.mk (Some (10, 20)) (Some (1, 40))
    [move_to 10 20;
     pen_down;
     Instruction.mk ("C17,1,40," +:+ tag +:+ ",END")
       ["C17"; "1"; "40"; tag; "END"] "C17" "move" (Some (1, 40));
     pen_up].

Definition stroke_a : Glyph.t := stroke "122159c38DJ0".
Definition stroke_b : Glyph.t := stroke "258EP9VbSA98".

Definition stroke_text (tag : string) : list string :=
  [ "C17,10,20,END" +:+ Glyph.newline;
    "C13,END" +:+ Glyph.newline;
    "C17,1,40," +:+ tag +:+ ",END" +:+ Glyph.newline;
    "C14,END" +:+ Glyph.newline ].

(** The three glyphs of the scenario: each starts and ends at one point,
    whatever its instructions are. *)
Definition at_point (x y : Z) (instructions : list Instruction.t) : Glyph.t :=
  Glyph.mk (Some (x, y)) (Some (x, y)) instructions.

(** A store with three glyph objects and the list that holds them. *)
Definition three_dots : store :=
  {[ 1%positive := OGlyph (at_point 0 0 []);
     2%positive := OGlyph (at_point 10 0 []);
     3%positive := OGlyph (at_point 5 5 []);
     4%positive := OList [1%positive; 2%positive; 3%positive] ]}.

(** * Notions for the further properties *)

(** The Chebyshev distance of two points. *)
Definition chebyshev (p q : Z * Z) : Z :=
  Z.max (Z.abs (q.1 - p.1)) (Z.abs (q.2 - p.2)).

(** The diagnostic lines that [Glyph.__init__] prints for a chunk that
    lacks a start or an end. *)
Definition problem_report (chunk : list Instruction.t) : list string :=
  "Problem with instruction set"%string
  :: ((λ i, Instruction.line i +:+ " (" +:+ Instruction.typename i +:+ ")")
        <$> chunk).

(** The order of the baseline sort: by start, a glyph without start
    first, then by [x], then by [y]. *)
Definition start_le (g h : Glyph.t) : Prop :=
  Py.coords_le (Glyph.start g) (Glyph.start h) = true.

(** A store with the glyph [no_start] and a list that holds it alone, and
    one with a well-formed glyph before it. *)
Definition lone_no_start : store :=
  {[ 1%positive := OGlyph no_start; 2%positive := OList [1%positive] ]}.


(** A glyph that the script can measure: it has a start and an end, and
    each of its move instructions has coordinates. *)
Definition drawable (g : Glyph.t) : Prop :=
  is_Some (Glyph.start g) ∧ is_Some (Glyph.end_ g)
  ∧ Forall (λ i, Instruction.typename i = "move"%string →
                 is_Some (Instruction.coords i)) (Glyph.instructions g).

(** The text of sixteen strokes on a line, and their glyphs. *)
Definition sixteen_dots : list Glyph.t :=
  (λ k, dot (Z.of_nat k) 0) <$> seq 0 16.

Definition sixteen_dots_text : list string :=
  seq 0 16 ≫= (λ k, dot_text (Z.of_nat k) 0).

(** * Properties *)

(** ** Tactics *)

(** Case analysis on [H : x ∈ [a; b; ...]]. *)
Ltac elem_cases H :=
  repeat (apply elem_of_cons in H as [->|H]);
  [..|by apply elem_of_nil in H].

(** ** The builtins on known values *)

Example hash_a : Py.hash "a" = 12416037344.
Proof. reflexivity. Qed.

Example hash_abc : Py.hash "abc" = 1453079729188098211.
Proof. reflexivity. Qed.

Example int_signed : Py.int " -42 " = Ok (-42).
Proof. reflexivity. Qed.

Example int_not_a_number : Py.int "END" = Raise ValueError.
Proof. reflexivity. Qed.

Example split_fields :
  Py.split "," "C17,10,20,END" = ["C17"; "10"; "20"; "END"]%string.
Proof. reflexivity. Qed.

Example range_probe_starts :
  Py.range 0 31 (31 `div` 15)
  = Ok [0; 2; 4; 6; 8; 10; 12; 14; 16; 18; 20; 22; 24; 26; 28; 30].
Proof. reflexivity. Qed.

Example sorted_by_start :
  Py.sorted Py.coords_le id [Some (3, 1); None; Some (1, 5); Some (1, 2)]
  = [None; Some (1, 2); Some (1, 5); Some (3, 1)].
Proof. reflexivity. Qed.

(** ** The monad *)

Lemma run_bind {S A B} (m : M S A) (f : A → M S B) (s : S) :
  run (m ≫= f) s =
  match run m s with
  | (Ok a, s') => run (f a) s'
  | (Raise e, s') => (Raise e, s')
  end.
Proof. reflexivity. Qed.

Lemma run_ret {S A} (a : A) (s : S) : run (mret a : M S A) s = (Ok a, s).
Proof. reflexivity. Qed.

Lemma run_lift {S A} (r : result A) (s : S) : run (lift r : M S A) s = (r, s).
Proof. reflexivity. Qed.

Lemma run_print (s : string) (o : output) :
  run (print s) o = (Ok tt, Output (stdout o ++ [s]) (stderr o)).
Proof. reflexivity. Qed.

Lemma run_eprint (s : string) (o : output) :
  run (eprint s) o = (Ok tt, Output (stdout o) (stderr o ++ [s])).
Proof. reflexivity. Qed.

(** ** The distance *)

Lemma max_abs_sym (a b c d : Z) :
  Z.max (Z.abs (a - b)) (Z.abs (c - d)) = Z.max (Z.abs (b - a)) (Z.abs (d - c)).
Proof. lia. Qed.

(** C9: on two instructions whose coordinates are present the distance is
    the Chebyshev norm [max(|p.x - q.x|, |p.y - q.y|)] of the two points,
    it is the same in both directions, and it is [0] from an instruction
    to itself; the distance between two glyphs is the same norm between
    the end of the first and the start of the second. *)
Theorem distance_chebyshev (a b : Instruction.t) (p q : Z * Z) :
  Instruction.coords a = Some p →
  Instruction.coords b = Some q →
  Instruction.distance_to a b
    = Ok (Z.max (Z.abs (p.1 - q.1)) (Z.abs (p.2 - q.2)))
  ∧ Instruction.distance_to a b = Instruction.distance_to b a
  ∧ Instruction.distance_to a a = Ok 0
  ∧ (∀ g h : Glyph.t, Glyph.end_ g = Some p → Glyph.start h = Some q →
       Glyph.distance_to g h
         = Ok (Z.max (Z.abs (p.1 - q.1)) (Z.abs (p.2 - q.2)))).
Proof.
  destruct p as [px py], q as [qx qy]. intros Ha Hb.
  unfold Instruction.distance_to, Glyph.distance_to.
  rewrite Ha, Hb. simpl. repeat split.
  - f_equal. apply max_abs_sym.
  - f_equal. apply max_abs_sym.
  - f_equal. lia.
  - intros g h -> ->. simpl. f_equal. apply max_abs_sym.
Qed.

Lemma distance_chebyshev_witness :
  Instruction.coords (move_to 3 4) = Some (3, 4)
  ∧ Instruction.coords (move_to 9 1) = Some (9, 1)
  ∧ Instruction.distance_to (move_to 3 4) (move_to 9 1) = Ok 6.
Proof.
  split; [reflexivity|]. split; [reflexivity|].
  exact (proj1 (distance_chebyshev (move_to 3 4) (move_to 9 1) (3, 4) (9, 1)
                  eq_refl eq_refl)).
Defined.

(** C7: when the coordinates of either instruction are absent,
    [Instruction.distance_to] raises [TypeError] and returns no number;
    so does [Glyph.distance_to] when the end of the first glyph or the
    start of the second one is absent. *)
Theorem distance_absent_raises :
  (∀ a b : Instruction.t,
     Instruction.coords a = None ∨ Instruction.coords b = None →
     Instruction.distance_to a b = Raise TypeError)
  ∧ (∀ g h : Glyph.t,
     Glyph.end_ g = None ∨ Glyph.start h = None →
     Glyph.distance_to g h = Raise TypeError).
Proof.
  split.
  - intros a b. unfold Instruction.distance_to.
    destruct (Instruction.coords a) as [[??]|], (Instruction.coords b) as [[??]|];
      simpl; intros [?|?]; congruence.
  - intros g h. unfold Glyph.distance_to.
    destruct (Glyph.end_ g) as [[??]|], (Glyph.start h) as [[??]|];
      simpl; intros [?|?]; congruence.
Qed.

Lemma distance_absent_raises_witness :
  Glyph.start no_start = None
  ∧ Glyph.distance_to (dot 0 0) no_start = Raise TypeError.
Proof.
  split; [reflexivity|].
  apply (proj2 distance_absent_raises (dot 0 0) no_start).
  right. reflexivity.
Defined.

(** ** The parser *)

Lemma getitem_nonneg {A} (l : list A) (i : Z) :
  0 ≤ i →
  Py.getitem l i = match l !! Z.to_nat i with
                   | Some x => Ok x
                   | None => Raise IndexError
                   end.
Proof.
  intros Hi. unfold Py.getitem.
  destruct (i <? 0) eqn:Hneg; [lia|]. simpl. rewrite Hneg. simpl.
  destruct (Z.of_nat (length l) <=? i) eqn:Hle; [|done].
  rewrite lookup_ge_None_2; [done|lia].
Qed.

Lemma split_nonempty (sep : ascii) (s : string) : Py.split sep s ≠ [].
Proof.
  destruct s as [|c s]; simpl; [done|].
  destruct (decide (c = sep)); [done|]. by destruct (Py.split sep s).
Qed.

(** Only [ValueError] leaves [int]. *)
Lemma int_outcome (s : string) :
  (∃ n, Py.int s = Ok n) ∨ Py.int s = Raise ValueError.
Proof.
  assert (Hu : ∀ r, (∃ n, Py.unsigned r = Ok n) ∨ Py.unsigned r = Raise ValueError).
  { intros r. unfold Py.unsigned. destruct r; [by right|].
    destruct (Py.digits 0 _); eauto. }
  unfold Py.int.
  destruct (Py.lstrip (Py.rstrip s)) as [|c r]; [apply Hu|].
  destruct c as [[] [] [] [] [] [] [] []]; try apply Hu.
  destruct (Hu r) as [[n ->]| ->]; simpl; eauto.
Qed.

Lemma getitem_neg {A} (l : list A) (i : Z) :
  i < 0 →
  Py.getitem l i
  = if decide (0 ≤ i + Z.of_nat (length l))
    then match l !! Z.to_nat (i + Z.of_nat (length l)) with
         | Some x => Ok x
         | None => Raise IndexError
         end
    else Raise IndexError.
Proof.
  intros Hi. unfold Py.getitem.
  destruct (i <? 0) eqn:Hneg; [|lia]. simpl.
  destruct (decide _) as [Hle|Hle].
  - destruct (_ || _) eqn:Hor; [lia|done].
  - destruct (_ || _) eqn:Hor; [done|lia].
Qed.

(** A line with three fields or more is parsed without an exception. *)
Lemma Instruction_init_three_fields (raw : string) :
  (3 ≤ length (Py.split "," (Py.rstrip raw)))%nat →
  ∃ i, Instruction.__init__ raw = Ok i.
Proof.
  unfold Instruction.__init__, Instruction._coords.
  destruct (Py.split "," (Py.rstrip raw)) as [|p0 [|p1 [|p2 ps]]];
    simpl; try lia.
  intros _. rewrite !getitem_nonneg by lia. simpl.
  destruct (int_outcome p1) as [[x ->]| ->]; simpl; eauto.
  destruct (int_outcome p2) as [[y ->]| ->]; simpl; eauto.
Qed.

(** The lines on which the parser raises: those with a single field, and
    those with two fields whose second field is an integer. *)
Lemma Instruction_init_raises_iff (raw : string) :
  Instruction.__init__ raw = Raise IndexError
  ↔ ∃ p0 rest,
      Py.split "," (Py.rstrip raw) = p0 :: rest
      ∧ (rest = [] ∨ ∃ p1 n, rest = [p1] ∧ Py.int p1 = Ok n).
Proof.
  unfold Instruction.__init__, Instruction._coords.
  pose proof (split_nonempty "," (Py.rstrip raw)) as Hne.
  destruct (Py.split "," (Py.rstrip raw)) as [|p0 [|p1 [|p2 ps]]]; [done|..].
  - split; [|done]. intros _. exists p0, []. eauto.
  - rewrite !getitem_nonneg by lia. simpl.
    destruct (int_outcome p1) as [[n Hn]|Hn]; rewrite Hn; simpl.
    + split; [|done]. intros _. exists p0, [p1]. split; [done|]. right. eauto.
    + split; [done|]. intros (? & ? & [= <- <-] & [[=]|(? & n & [= <-] & Hok)]).
      congruence.
  - rewrite !getitem_nonneg by lia. simpl. split.
    + destruct (int_outcome p1) as [[x ->]| ->]; simpl; [|done].
      by destruct (int_outcome p2) as [[y ->]| ->].
    + intros (? & ? & [= <- <-] & [[=]|(? & ? & [=] & _)]).
Qed.

(** C3, as the code behaves: [_coords] catches [ValueError] only, so the
    [IndexError] of [parts[1]] or [parts[2]] on a line with fewer than
    three fields leaves the parser: a line with the single field [C14],
    an empty line, and a line whose second field is an integer and whose
    third is missing all raise. *)
Theorem Instruction_init_short_line_raises :
  Instruction.__init__ "C14" = Raise IndexError
  ∧ Instruction.__init__ "" = Raise IndexError
  ∧ Instruction.__init__ "C17,5" = Raise IndexError.
Proof. repeat split; reflexivity. Qed.

(** ** The command stream *)

Lemma rstrip_spec (s : string) :
  ∃ ws, s = Py.rstrip s +:+ ws ∧ all_space ws = true
        ∧ ∀ c, last_char (Py.rstrip s) = Some c → Py.isspace c = false.
Proof.
  induction s as [|a s (ws & Heq & Hws & Hlast)]; simpl.
  - exists EmptyString. split_and!; done.
  - destruct (Py.rstrip s) as [|b r] eqn:Hr.
    + destruct (Py.isspace a) eqn:Ha.
      * exists (String a ws). simpl in *. rewrite Ha, Hws.
        split_and!; [by rewrite Heq at 1|done|done].
      * exists ws. simpl in *.
        split_and!; [by rewrite Heq at 1|done|]. by intros c [= <-].
    + exists ws. split_and!; [|done|].
      * simpl in *. by rewrite Heq at 1.
      * intros c Hc. apply Hlast. simpl in *. by destruct r.
Qed.

Lemma Instruction_init_line (raw : string) (i : Instruction.t) :
  Instruction.__init__ raw = Ok i → Instruction.line i = Py.rstrip raw.
Proof.
  unfold Instruction.__init__.
  destruct (Py.getitem _ 0) as [tc|]; simpl; [|done].
  destruct (Instruction._coords _) as [cs|]; simpl; [|done].
  by intros [= <-].
Qed.

Lemma for_print_lines (insts : list Instruction.t) (o : output) :
  run (for_ insts (λ i, print (Instruction.line i))) o
  = (Ok tt, Output (stdout o ++ (Instruction.line <$> insts)) (stderr o)).
Proof.
  revert o. induction insts as [|i insts IH]; intros [out err]; simpl.
  - unfold run; simpl. by rewrite app_nil_r.
  - rewrite run_bind. unfold run at 1, print; simpl.
    rewrite IH; simpl. by rewrite <- app_assoc.
Qed.

Lemma for_print_glyphs (gs : list Glyph.t) (o : output) :
  run (for_ gs (λ g, for_ (Glyph.instructions g)
                       (λ i, print (Instruction.line i)))) o
  = (Ok tt, Output (stdout o ++ (g ← gs; Glyph.lines g)) (stderr o)).
Proof.
  revert o. induction gs as [|g gs IH]; intros [out err]; simpl.
  - unfold run; simpl. by rewrite app_nil_r.
  - rewrite run_bind, for_print_lines; simpl.
    rewrite IH; simpl. unfold Glyph.lines. by rewrite <- app_assoc.
Qed.

(** C8: whatever the ordering [gs] is, [print_glyphs gs] adds to the
    command stream the line [C14,END] followed by the raw lines of the
    instructions of every glyph, glyph after glyph in the order of [gs]
    and in the order the glyph holds them; the diagnostics are left alone.
    The line an instruction holds is the raw input line without its
    trailing whitespace, and nothing else is removed from it. *)
Theorem print_glyphs_stream (gs : list Glyph.t) (o : output) :
  run (print_glyphs gs) o
  = (Ok tt, Output (stdout o ++ "C14,END" :: (g ← gs; Glyph.lines g))
                   (stderr o))
  ∧ (∀ raw i, Instruction.__init__ raw = Ok i →
       Instruction.line i = Py.rstrip raw
       ∧ ∃ ws, raw = Instruction.line i +:+ ws
               ∧ all_space ws = true
               ∧ ∀ c, last_char (Instruction.line i) = Some c →
                      Py.isspace c = false).
Proof.
  split.
  - unfold print_glyphs. rewrite run_bind. unfold run at 1, print; simpl.
    rewrite for_print_glyphs; simpl. by rewrite <- app_assoc.
  - intros raw i Hi. apply Instruction_init_line in Hi. rewrite Hi.
    split; [done|]. apply rstrip_spec.
Qed.

Lemma print_glyphs_stream_witness :
  Instruction.__init__ ("C17,3,4,END  " +:+ Glyph.newline) = Ok (move_to 3 4)
  ∧ Instruction.line (move_to 3 4) = "C17,3,4,END"
  ∧ run (print_glyphs [dot 3 4]) (Output [] [])
    = (Ok tt, Output ["C14,END"; "C17,3,4,END"; "C13,END"; "C17,3,4,END";
                      "C14,END"] []).
Proof.
  split; [reflexivity|]. split.
  - exact (proj1 (proj2 (print_glyphs_stream [] (Output [] []))
                    ("C17,3,4,END  " +:+ Glyph.newline) (move_to 3 4) eq_refl)).
  - exact (proj1 (print_glyphs_stream [dot 3 4] (Output [] []))).
Defined.

(** ** Segmentation *)

Lemma endpoints_glyph_of (chunk : list Instruction.t) :
  Glyph.endpoints chunk
  = Ok (Glyph.start (glyph_of chunk), Glyph.end_ (glyph_of chunk)).
Proof.
  unfold Glyph.endpoints, glyph_of.
  rewrite (getitem_nonneg chunk 0), (getitem_neg chunk (-2)) by lia.
  change (Z.to_nat 0) with 0%nat.
  destruct (chunk !! 0%nat) as [first|] eqn:Hfirst; [|done].
  replace (Z.to_nat (-2 + Z.of_nat (length chunk)))
    with (length chunk - 2)%nat by lia.
  destruct (decide (0 ≤ -2 + Z.of_nat (length chunk))) as [Hlen|Hlen].
  - destruct (lookup_lt_is_Some_2 chunk (length chunk - 2)) as [x Hx]; [lia|].
    rewrite Hx. simpl. destruct (decide (2 ≤ length chunk)%nat); [done|lia].
  - simpl. destruct (chunk !! (length chunk - 2)%nat); [|done].
    destruct (decide (2 ≤ length chunk)%nat); [lia|done].
Qed.

Lemma glyph_of_instructions (chunk : list Instruction.t) :
  Glyph.instructions (glyph_of chunk) = chunk.
Proof.
  unfold glyph_of.
  destruct (chunk !! 0%nat), (chunk !! (length chunk - 2)%nat); try done.
  by destruct (decide _).
Qed.

Lemma for_eprint {A} (f : A → string) (xs : list A) (o : output) :
  run (for_ xs (λ x, eprint (f x))) o
  = (Ok tt, Output (stdout o) (stderr o ++ (f <$> xs))).
Proof.
  revert o. induction xs as [|x xs IH]; intros [out err]; simpl.
  - unfold run; simpl. by rewrite app_nil_r.
  - rewrite run_bind. unfold run at 1, eprint; simpl.
    rewrite IH; simpl. by rewrite <- app_assoc.
Qed.

(** Building a glyph never fails and writes to the diagnostics only. *)
Lemma Glyph_init_run (chunk : list Instruction.t) (o : output) :
  ∃ o', run (Glyph.__init__ chunk) o = (Ok (glyph_of chunk), o')
        ∧ stdout o' = stdout o.
Proof.
  unfold Glyph.__init__. rewrite run_bind, run_lift, endpoints_glyph_of.
  rewrite run_bind.
  assert (Hg : Glyph.mk (Glyph.start (glyph_of chunk))
                 (Glyph.end_ (glyph_of chunk)) chunk = glyph_of chunk).
  { rewrite <- (glyph_of_instructions chunk) at 3. by destruct (glyph_of chunk). }
  destruct (_ || _).
  - rewrite run_bind, run_eprint.
    rewrite (for_eprint (λ i, Instruction.line i +:+ " (" +:+
                              Instruction.typename i +:+ ")")).
    rewrite run_ret, Hg. eauto.
  - rewrite run_ret, run_ret, Hg. eauto.
Qed.

Lemma chunks_no_penup (chunk : list Instruction.t) :
  Forall (λ i, ¬ is_penup i) chunk → chunks chunk = ([], chunk).
Proof.
  induction 1 as [|i chunk Hi _ IH]; simpl; [done|].
  rewrite IH. by destruct (decide (is_penup i)).
Qed.

Lemma chunks_app_no_penup (chunk insts : list Instruction.t) :
  Forall (λ i, ¬ is_penup i) chunk →
  chunks (chunk ++ insts)
  = match (chunks insts).1 with
    | c :: cs => ((chunk ++ c) :: cs, (chunks insts).2)
    | [] => ([], chunk ++ (chunks insts).2)
    end.
Proof.
  induction 1 as [|i chunk Hi _ IH]; simpl.
  - by destruct (chunks insts) as [[|c cs] rest].
  - rewrite IH. destruct (decide (is_penup i)); [done|].
    by destruct (chunks insts) as [[|c cs] rest].
Qed.

Lemma chunks_app_penup (chunk insts : list Instruction.t) (u : Instruction.t) :
  Forall (λ i, ¬ is_penup i) chunk → is_penup u →
  chunks (chunk ++ u :: insts)
  = ((chunk ++ [u]) :: (chunks insts).1, (chunks insts).2).
Proof.
  intros Hc Hu. rewrite chunks_app_no_penup by done. simpl.
  destruct (chunks insts) as [cs rest]. by destruct (decide (is_penup u)).
Qed.

(** The loop, started with some glyphs already emitted and a chunk under
    way that holds no pen-up. *)
Lemma segment_loop (insts : list Instruction.t) :
  ∀ (glyphs : list Glyph.t) (chunk : list Instruction.t) (o : output),
    Forall (λ i, ¬ is_penup i) chunk →
    ∃ o', run (for_acc insts segment_step (glyphs, chunk)) o
          = (Ok (glyphs ++ (glyph_of <$>
                              filter (λ c, 1 < length c)%nat
                                (chunks (chunk ++ insts)).1),
                 (chunks (chunk ++ insts)).2), o')
          ∧ stdout o' = stdout o.
Proof.
  induction insts as [|i insts IH]; intros glyphs chunk o Hc.
  - rewrite app_nil_r, chunks_no_penup by done. simpl.
    rewrite app_nil_r. eexists. by rewrite run_ret.
  - simpl. rewrite run_bind.
    destruct (decide (Instruction.typename i = "penup"%string)) as [Hi|Hi].
    + rewrite chunks_app_penup by done. simpl.
      destruct (1 <? Z.of_nat (length (chunk ++ [i]))) eqn:Hlen.
      * rewrite run_bind.
        destruct (Glyph_init_run (chunk ++ [i]) o) as (o1 & -> & Ho1).
        rewrite run_ret.
        destruct (IH (glyphs ++ [glyph_of (chunk ++ [i])]) [] o1)
          as (o2 & Hrun & Ho2); [done|].
        simpl in Hrun. rewrite Hrun.
        exists o2. split; [|congruence].
        rewrite filter_cons_True by lia. simpl. by rewrite <- app_assoc.
      * rewrite run_ret.
        destruct (IH glyphs [] o) as (o2 & Hrun & Ho2); [done|].
        simpl in Hrun. rewrite Hrun.
        exists o2. split; [|done].
        rewrite filter_cons_False by lia. done.
    + rewrite run_ret.
      destruct (IH glyphs (chunk ++ [i]) o) as (o2 & Hrun & Ho2).
      { apply Forall_app. split; [done|]. by apply Forall_singleton. }
      rewrite <- app_assoc in Hrun. simpl in Hrun. eauto.
Qed.

Lemma chunks_decompose (insts : list Instruction.t) :
  concat (chunks insts).1 ++ (chunks insts).2 = insts
  ∧ Forall (λ c, ∃ body u, c = body ++ [u] ∧ is_penup u
                           ∧ Forall (λ i, ¬ is_penup i) body)
      (chunks insts).1
  ∧ Forall (λ i, ¬ is_penup i) (chunks insts).2.
Proof.
  induction insts as [|i insts (Hcat & Hcs & Hrest)]; simpl; [by split_and!|].
  destruct (chunks insts) as [cs rest]. simpl in *.
  destruct (decide (is_penup i)) as [Hi|Hi]; simpl.
  - split_and!; [by rewrite Hcat| |done].
    constructor; [|done]. exists [], i. by split_and!.
  - destruct cs as [|c cs]; simpl in *.
    + split_and!; [by rewrite Hcat|done|by constructor].
    + split_and!; [by rewrite Hcat| |done].
      inversion Hcs as [|? ? (body & u & -> & Hu & Hbody) Hcs']; subst.
      constructor; [|done]. exists (i :: body), u.
      split_and!; [done|done|by constructor].
Qed.

(** C6: the glyphs that segmentation returns are, in input order, the
    glyphs of the chunks closed by a pen-up that hold more than one
    instruction, where the closed chunks and the unterminated rest cut the
    input into pieces: every closed chunk is a run without pen-up followed
    by one pen-up, and the rest holds no pen-up.  A chunk that is a lone
    pen-up gives no glyph, and neither does the rest.  Each glyph holds
    its chunk.  On [pen-down, pen-up, pen-up] the result is the single
    glyph of the first two instructions. *)
Theorem segment_chunks :
  (∀ insts o,
     (run (segment insts) o).1
     = Ok (glyph_of <$> filter (λ c, 1 < length c)%nat (chunks insts).1))
  ∧ (∀ insts,
       concat (chunks insts).1 ++ (chunks insts).2 = insts
       ∧ Forall (λ c, ∃ body u, c = body ++ [u] ∧ is_penup u
                                ∧ Forall (λ i, ¬ is_penup i) body)
           (chunks insts).1
       ∧ Forall (λ i, ¬ is_penup i) (chunks insts).2)
  ∧ (∀ chunk, Glyph.instructions (glyph_of chunk) = chunk)
  ∧ (∀ d u1 u2 o,
       Instruction.typename d = "pendown"%string →
       Instruction.typename u1 = "penup"%string →
       Instruction.typename u2 = "penup"%string →
       (run (segment [d; u1; u2]) o).1
       = Ok [Glyph.mk (Instruction.coords d) (Instruction.coords d) [d; u1]]).
Proof.
  assert (Hseg : ∀ insts o,
     (run (segment insts) o).1
     = Ok (glyph_of <$> filter (λ c, 1 < length c)%nat (chunks insts).1)).
  { intros insts o. unfold segment. rewrite run_bind.
    destruct (segment_loop insts [] [] o) as (o' & Hrun & _); [done|].
    simpl in Hrun. rewrite Hrun. by rewrite run_ret. }
  split_and!; [done|apply chunks_decompose|apply glyph_of_instructions|].
  intros d u1 u2 o Hd Hu1 Hu2. rewrite Hseg. simpl.
  unfold is_penup.
  destruct (decide (Instruction.typename u2 = "penup"%string)); [|done].
  destruct (decide (Instruction.typename u1 = "penup"%string)); [|done].
  destruct (decide (Instruction.typename d = "penup"%string)); [congruence|].
  reflexivity.
Qed.

Lemma segment_chunks_witness :
  Instruction.typename pen_down = "pendown"%string
  ∧ Instruction.typename pen_up = "penup"%string
  ∧ (run (segment [pen_down; pen_up; pen_up]) (Output [] [])).1
    = Ok [Glyph.mk None None [pen_down; pen_up]].
Proof.
  split; [reflexivity|]. split; [reflexivity|].
  exact (proj2 (proj2 (proj2 segment_chunks)) pen_down pen_up pen_up
           (Output [] []) eq_refl eq_refl eq_refl).
Defined.

(** ** Deduplication *)

Lemma filter_all {A} (P : A → Prop) `{∀ x, Decision (P x)} (l : list A) :
  (∀ x, P x) → filter P l = l.
Proof.
  intros HP. induction l as [|x l IH]; [done|].
  by rewrite filter_cons_True, IH.
Qed.

Lemma dedupe_from_filter (gs : list Glyph.t) (seen : gset Z) :
  dedupe_from seen gs
  = filter (λ g, Glyph.__hash__ g ∉ seen)
      (first_occurrences Glyph.__hash__ gs).
Proof.
  revert seen. induction gs as [|g gs IH]; intros seen; simpl; [done|].
  destruct (decide (Glyph.__hash__ g ∉ seen)) as [Hnew|Hold].
  - rewrite filter_cons_True by done. f_equal.
    rewrite IH, list_filter_filter. apply list_filter_iff.
    intros x. rewrite not_elem_of_union, not_elem_of_singleton. tauto.
  - rewrite filter_cons_False by done.
    rewrite IH, list_filter_filter. apply list_filter_iff.
    intros x. split; [|tauto]. intros Hx. split; [done|].
    intros Heq. apply Hold. by rewrite <- Heq.
Qed.

Lemma dedupe_by_hash (gs : list Glyph.t) :
  dedupe gs = first_occurrences Glyph.__hash__ gs.
Proof.
  unfold dedupe. rewrite dedupe_from_filter.
  apply filter_all. intros x. apply not_elem_of_empty.
Qed.

(** C1, as the code behaves: [dedupe] keeps the first occurrences, in
    order, where two glyphs are duplicates exactly when the hash codes of
    their joined raw lines are equal.  Glyphs with the same raw lines have
    the same hash code, and on [A, B, A', C] with [A] and [A'] of the same
    raw lines and [A], [B], [C] of pairwise different hash codes the
    result is [A, B, C]. *)
Theorem dedupe_first_occurrences_by_hash :
  (∀ gs, dedupe gs = first_occurrences Glyph.__hash__ gs)
  ∧ (∀ g g', Glyph.lines g = Glyph.lines g' →
             Glyph.__hash__ g = Glyph.__hash__ g')
  ∧ (∀ A B A' C,
       Glyph.lines A = Glyph.lines A' →
       Glyph.__hash__ A ≠ Glyph.__hash__ B →
       Glyph.__hash__ A ≠ Glyph.__hash__ C →
       Glyph.__hash__ B ≠ Glyph.__hash__ C →
       dedupe [A; B; A'; C] = [A; B; C]).
Proof.
  assert (Hh : ∀ g g', Glyph.lines g = Glyph.lines g' →
                       Glyph.__hash__ g = Glyph.__hash__ g').
  { intros g g' Hl. unfold Glyph.__hash__. by rewrite Hl. }
  split_and!; [apply dedupe_by_hash|done|].
  intros A B A' C HA HAB HAC HBC. rewrite dedupe_by_hash. simpl.
  apply Hh in HA.
  assert (HCA : Glyph.__hash__ C ≠ Glyph.__hash__ A') by congruence.
  assert (HAB' : Glyph.__hash__ A' ≠ Glyph.__hash__ B) by congruence.
  rewrite filter_nil, (filter_cons_True _ C) by done.
  rewrite filter_nil, (filter_cons_True _ A') by done.
  rewrite (filter_cons_True _ C) by congruence.
  rewrite filter_nil, (filter_cons_True _ B) by congruence.
  rewrite (filter_cons_False _ A') by (intros ?; congruence).
  rewrite (filter_cons_True _ C) by congruence. done.
Qed.

Lemma dedupe_first_occurrences_by_hash_witness :
  Glyph.lines (dot 0 0) = Glyph.lines (dot 0 0)
  ∧ dedupe [dot 0 0; dot 10 0; dot 0 0; dot 5 5]
    = [dot 0 0; dot 10 0; dot 5 5].
Proof.
  split; [reflexivity|].
  apply (proj2 (proj2 dedupe_first_occurrences_by_hash)
           (dot 0 0) (dot 10 0) (dot 0 0) (dot 5 5));
    [reflexivity | vm_compute; discriminate ..].
Defined.

(** The raw lines of [stroke_a] and [stroke_b] differ, they have the same
    hash code, and [dedupe] drops the second: it does not return the first
    occurrences by raw lines.  Both glyphs are what the script builds from
    the text of the two strokes. *)
Lemma dedupe_drops_distinct_glyph :
  (run (read_glyphs (stroke_text "122159c38DJ0" ++ stroke_text "258EP9VbSA98"))
       (Output [] [])).1
  = Ok [stroke_a; stroke_b]
  ∧ Glyph.lines stroke_a ≠ Glyph.lines stroke_b
  ∧ Glyph.__hash__ stroke_a = Glyph.__hash__ stroke_b
  ∧ dedupe [stroke_a; stroke_b] = [stroke_a]
  ∧ dedupe [stroke_a; stroke_b]
    ≠ first_occurrences Glyph.lines [stroke_a; stroke_b].
Proof.
  split_and!; [by vm_compute | by vm_compute | by vm_compute | by vm_compute|].
  vm_compute. discriminate.
Qed.

(** ** The store *)

Lemma run_read_list (σ : store) (l : loc) (xs : list loc) :
  σ !! l = Some (OList xs) → run (read_list l) σ = (Ok xs, σ).
Proof. intros H. unfold run, read_list. by rewrite H. Qed.

Lemma run_read_glyph (σ : store) (l : loc) (g : Glyph.t) :
  σ !! l = Some (OGlyph g) → run (read_glyph l) σ = (Ok g, σ).
Proof. intros H. unfold run, read_glyph. by rewrite H. Qed.

Lemma run_write_list (σ : store) (l : loc) (xs : list loc) :
  run (write_list l xs) σ = (Ok tt, <[l := OList xs]> σ).
Proof. reflexivity. Qed.

Lemma run_alloc (σ : store) (o : obj) :
  run (alloc o) σ = (Ok (fresh (dom σ)), <[fresh (dom σ) := o]> σ).
Proof. reflexivity. Qed.

Lemma run_raise {S A} (e : exn) (s : S) :
  run (raise e : M S A) s = (Raise e, s).
Proof. reflexivity. Qed.

Lemma fresh_lookup (σ : store) : σ !! fresh (dom σ) = None.
Proof. apply not_elem_of_dom, is_fresh. Qed.

(** Reading leaves the store as it is, whatever the outcome. *)
Lemma read_list_cases (σ : store) (l : loc) :
  (∃ xs, σ !! l = Some (OList xs) ∧ run (read_list l) σ = (Ok xs, σ))
  ∨ run (read_list l) σ = (Raise TypeError, σ).
Proof.
  unfold run, read_list. destruct (σ !! l) as [[g|xs]|]; eauto.
Qed.

Lemma read_glyph_cases (σ : store) (l : loc) :
  (∃ g, σ !! l = Some (OGlyph g) ∧ run (read_glyph l) σ = (Ok g, σ))
  ∨ run (read_glyph l) σ = (Raise TypeError, σ).
Proof.
  unfold run, read_glyph. destruct (σ !! l) as [[g|xs]|]; eauto.
Qed.

Lemma glyph_distance_to_state (σ : store) (p x : loc) :
  (run (glyph_distance_to p x) σ).2 = σ.
Proof.
  unfold glyph_distance_to. rewrite run_bind.
  destruct (read_glyph_cases σ x) as [(gx & _ & ->)| ->]; [|done].
  rewrite run_bind.
  destruct (read_glyph_cases σ p) as [(gp & _ & ->)| ->]; [|done].
  by rewrite run_lift.
Qed.

Lemma glyph_distance_to_run (σ : store) (p x : loc) :
  run (glyph_distance_to p x) σ = (glyph_dist σ p x, σ).
Proof.
  unfold glyph_dist. rewrite <- (glyph_distance_to_state σ p x) at 3.
  by destruct (run _ σ).
Qed.

(** The distance depends on the two glyph objects only. *)
Lemma glyph_dist_agree (σ τ : store) (p x : loc) :
  τ !! p = σ !! p → τ !! x = σ !! x → glyph_dist τ p x = glyph_dist σ p x.
Proof.
  intros Hp Hx. unfold glyph_dist, glyph_distance_to, run, read_glyph.
  unfold mbind, M_bind. rewrite Hx.
  destruct (σ !! x) as [[gx|?]|]; try done.
  rewrite Hp. destruct (σ !! p) as [[gp|?]|]; done.
Qed.

Lemma glyph_dist_well_formed (σ : store) (p x : loc) :
  well_formed σ p → well_formed σ x →
  glyph_dist σ p x = Ok (dist_of σ p x).
Proof.
  intros (gp & sp & ep & Hp & _ & Hep) (gx & sx & ex & Hx & Hsx & _).
  unfold dist_of.
  assert (∃ d, glyph_dist σ p x = Ok d) as [d ->]; [|done].
  unfold glyph_dist, glyph_distance_to.
  rewrite run_bind, (run_read_glyph _ _ _ Hx).
  rewrite run_bind, (run_read_glyph _ _ _ Hp), run_lift. simpl.
  unfold Glyph.distance_to. rewrite Hep, Hsx.
  destruct sx, ep. simpl. eauto.
Qed.

(** ** The nearest glyph *)

Lemma min_from_run (σ : store) (f : loc → Z) (prev best : loc)
    (xs : list loc) :
  (∀ x, x ∈ xs → glyph_dist σ prev x = Ok (f x)) →
  run (min_from (glyph_distance_to prev) best (f best) xs) σ
  = (Ok (argmin_from f best xs), σ).
Proof.
  revert best. induction xs as [|x xs IH]; intros best Hxs; simpl; [done|].
  rewrite run_bind, glyph_distance_to_run, Hxs by left.
  destruct (_ <? _); apply IH; intros y Hy; apply Hxs; by right.
Qed.

Lemma min_key_run (σ : store) (f : loc → Z) (prev x : loc) (xs : list loc) :
  (∀ y, y ∈ x :: xs → glyph_dist σ prev y = Ok (f y)) →
  run (min_key (glyph_distance_to prev) (x :: xs)) σ
  = (Ok (argmin_from f x xs), σ).
Proof.
  intros Hxs. simpl.
  rewrite run_bind, glyph_distance_to_run, Hxs by left.
  apply min_from_run. intros y Hy. apply Hxs. by right.
Qed.

(** The best item so far is the first of the nearest items among those
    seen so far; this stays true to the end of the list. *)
Lemma argmin_from_split (f : loc → Z) (xs before after : list loc) (best : loc) :
  (∀ x, x ∈ before → f best < f x) →
  (∀ x, x ∈ after → f best ≤ f x) →
  ∃ before' after',
    before ++ best :: after ++ xs
    = before' ++ argmin_from f best xs :: after'
    ∧ (∀ x, x ∈ before' → f (argmin_from f best xs) < f x)
    ∧ (∀ x, x ∈ after' → f (argmin_from f best xs) ≤ f x).
Proof.
  revert before after best.
  induction xs as [|x xs IH]; intros before after best Hb Ha; simpl.
  - exists before, after. by rewrite app_nil_r.
  - destruct (f x <? f best) eqn:Hlt.
    + destruct (IH (before ++ best :: after) [] x) as (b' & a' & Heq & Hb' & Ha').
      * intros y [Hy|Hy]%elem_of_app.
        -- specialize (Hb y Hy). lia.
        -- apply elem_of_cons in Hy as [->|Hy]; [lia|].
           specialize (Ha y Hy). lia.
      * intros y Hy. by apply elem_of_nil in Hy.
      * exists b', a'. split; [|done]. rewrite <- Heq. simpl.
        by rewrite <- app_assoc.
    + destruct (IH before (after ++ [x]) best) as (b' & a' & Heq & Hb' & Ha').
      * done.
      * intros y [Hy|Hy]%elem_of_app; [by apply Ha|].
        apply list_elem_of_singleton in Hy as ->. lia.
      * exists b', a'. split; [|done]. rewrite <- Heq.
        by rewrite <- app_assoc.
Qed.

Lemma argmin_from_first (f : loc → Z) (x : loc) (xs : list loc) :
  ∃ before after,
    x :: xs = before ++ argmin_from f x xs :: after
    ∧ (∀ y, y ∈ before → f (argmin_from f x xs) < f y)
    ∧ (∀ y, y ∈ after → f (argmin_from f x xs) ≤ f y).
Proof.
  destruct (argmin_from_split f xs [] [] x) as (b & a & Heq & Hb & Ha).
  - intros y Hy. by apply elem_of_nil in Hy.
  - intros y Hy. by apply elem_of_nil in Hy.
  - exists b, a. by rewrite <- Heq.
Qed.

Lemma argmin_from_elem (f : loc → Z) (x : loc) (xs : list loc) :
  argmin_from f x xs ∈ x :: xs.
Proof.
  destruct (argmin_from_first f x xs) as (b & a & -> & _).
  apply elem_of_app. right. by left.
Qed.

(** ** The list methods *)

Lemma index_of_lookup (x : loc) (xs : list loc) (j : nat) :
  index_of x xs = Some j → xs !! j = Some x.
Proof.
  revert j. induction xs as [|y xs IH]; intros j; simpl; [done|].
  destruct (decide (y = x)) as [->|Hne].
  - by intros [= <-].
  - destruct (index_of x xs) as [k|]; simpl; [|done].
    intros [= <-]. by apply IH.
Qed.

Lemma index_of_elem (x : loc) (xs : list loc) :
  x ∈ xs → ∃ j, index_of x xs = Some j.
Proof.
  induction 1 as [x xs|x y xs _ [j IH]]; simpl.
  - rewrite decide_True by done. eauto.
  - destruct (decide (y = x)); [eauto|]. rewrite IH. simpl. eauto.
Qed.

Lemma remove_first_cons_eq (x : loc) (xs : list loc) :
  remove_first x (x :: xs) = xs.
Proof. unfold remove_first. simpl. by rewrite decide_True. Qed.

Lemma remove_first_cons_ne (x y : loc) (xs : list loc) :
  y ≠ x → remove_first x (y :: xs) = y :: remove_first x xs.
Proof.
  intros Hne. unfold remove_first. simpl. rewrite decide_False by done.
  by destruct (index_of x xs).
Qed.

Lemma remove_first_perm (x : loc) (xs : list loc) :
  x ∈ xs → x :: remove_first x xs ≡ₚ xs.
Proof.
  intros [j Hj]%index_of_elem. unfold remove_first. rewrite Hj.
  symmetry. by apply delete_Permutation, index_of_lookup.
Qed.

Lemma remove_first_length (x : loc) (xs : list loc) :
  x ∈ xs → S (length (remove_first x xs)) = length xs.
Proof.
  intros Hx. apply remove_first_perm in Hx.
  apply Permutation_length in Hx. done.
Qed.

Lemma remove_first_elem (x y : loc) (xs : list loc) :
  y ∈ remove_first x xs → y ∈ xs.
Proof.
  unfold remove_first. destruct (index_of x xs) as [j|]; [|done].
  apply list_elem_of_delete_inv.
Qed.

Lemma unvisited_elem (y : loc) (xs visited : list loc) (j : nat) :
  y ∈ unvisited xs j visited → y ∈ xs.
Proof.
  unfold unvisited. intros Hy.
  assert (Hd : ∀ z, z ∈ delete j xs → z ∈ xs).
  { intros z. apply list_elem_of_delete_inv. }
  revert Hy Hd. generalize (delete j xs) as rem.
  induction visited as [|v visited IH]; intros rem Hy Hd; simpl in *.
  - by apply Hd.
  - apply (IH _ Hy). intros z Hz. by apply Hd, (remove_first_elem v).
Qed.

Lemma run_len (σ : store) (l : loc) (xs : list loc) :
  σ !! l = Some (OList xs) → run (len l) σ = (Ok (Z.of_nat (length xs)), σ).
Proof.
  intros Hl. unfold len. by rewrite run_bind, (run_read_list _ _ _ Hl).
Qed.

Lemma run_pop (σ : store) (l : loc) (xs : list loc) (index : Z) :
  σ !! l = Some (OList xs) →
  - Z.of_nat (length xs) ≤ index < Z.of_nat (length xs) →
  ∃ x, Py.getitem xs index = Ok x
       ∧ xs !! position (length xs) index = Some x
       ∧ run (pop l index) σ
         = (Ok x, <[l := OList (delete (position (length xs) index) xs)]> σ).
Proof.
  intros Hl Hrange. unfold pop, position.
  rewrite run_bind, (run_read_list _ _ _ Hl).
  set (j := if index <? 0 then index + Z.of_nat (length xs) else index).
  assert (Hj : 0 ≤ j < Z.of_nat (length xs)).
  { unfold j. destruct (index <? 0) eqn:?; lia. }
  destruct (lookup_lt_is_Some_2 xs (Z.to_nat j)) as [x Hx]; [lia|].
  exists x. split_and!; [|done|].
  - unfold Py.getitem. fold j.
    destruct (_ || _) eqn:Hor; [lia|]. by rewrite Hx.
  - destruct (_ || _) eqn:Hor; [lia|].
    rewrite run_bind, run_lift, getitem_nonneg, Hx by lia.
    by rewrite run_bind, run_write_list, run_ret.
Qed.

Lemma run_remove (σ : store) (l x : loc) (xs : list loc) :
  σ !! l = Some (OList xs) → x ∈ xs →
  run (remove l x) σ = (Ok tt, <[l := OList (remove_first x xs)]> σ).
Proof.
  intros Hl [j Hj]%index_of_elem. unfold remove, remove_first.
  rewrite run_bind, (run_read_list _ _ _ Hl), Hj. apply run_write_list.
Qed.

Lemma run_append (σ : store) (l x : loc) (xs : list loc) :
  σ !! l = Some (OList xs) →
  run (append l x) σ = (Ok tt, <[l := OList (xs ++ [x])]> σ).
Proof.
  intros Hl. unfold append.
  rewrite run_bind, (run_read_list _ _ _ Hl). apply run_write_list.
Qed.

(** ** The loop of reorder_greedy, when every glyph is well formed *)

Section loop.
Context (σ : store) (gs ordered : loc).
Hypothesis gs_fresh : σ !! gs = None.
Hypothesis ordered_fresh : σ !! ordered = None.
Hypothesis gs_ordered : gs ≠ ordered.

Lemma extends_well_formed (τ : store) (x : loc) :
  extends σ gs ordered τ → well_formed σ x → τ !! x = σ !! x.
Proof.
  intros Hext (g & s & e & Hx & _). apply Hext; congruence.
Qed.

Lemma extends_dist (τ : store) (p x : loc) :
  extends σ gs ordered τ → well_formed σ p → well_formed σ x →
  glyph_dist τ p x = Ok (dist_of σ p x).
Proof.
  intros Hext Hp Hx.
  rewrite <- (glyph_dist_well_formed σ p x Hp Hx).
  apply glyph_dist_agree; by apply extends_well_formed.
Qed.

Lemma extends_insert_gs (τ : store) (o : obj) :
  extends σ gs ordered τ → extends σ gs ordered (<[gs := o]> τ).
Proof.
  intros Hext l Hgs Hord. rewrite lookup_insert_ne by done. by apply Hext.
Qed.

Lemma extends_insert_ordered (τ : store) (o : obj) :
  extends σ gs ordered τ → extends σ gs ordered (<[ordered := o]> τ).
Proof.
  intros Hext l Hgs Hord. rewrite lookup_insert_ne by done. by apply Hext.
Qed.

Lemma reorder_loop_run (fuel : nat) :
  ∀ (τ : store) (prev : loc) (rem acc : list loc),
    extends σ gs ordered τ →
    τ !! gs = Some (OList rem) →
    τ !! ordered = Some (OList acc) →
    well_formed σ prev →
    (∀ x, x ∈ rem → well_formed σ x) →
    (length rem ≤ fuel)%nat →
    ∃ τ', run (reorder_loop fuel gs ordered prev) τ = (Ok tt, τ')
          ∧ extends σ gs ordered τ'
          ∧ τ' !! gs = Some (OList [])
          ∧ τ' !! ordered
            = Some (OList (acc ++ nn_path (dist_of σ) fuel prev rem)).
Proof.
  induction fuel as [|fuel IH];
    intros τ prev rem acc Hext Hgs Hord Hprev Hrem Hfuel.
  - destruct rem as [|x rem]; [|simpl in Hfuel; lia].
    exists τ. simpl. rewrite run_bind, (run_len _ _ _ Hgs). simpl.
    rewrite run_ret, app_nil_r. done.
  - destruct rem as [|x rem].
    { exists τ. simpl. rewrite run_bind, (run_len _ _ _ Hgs). simpl.
      rewrite run_ret, app_nil_r. done. }
    set (c := argmin_from (dist_of σ prev) x rem).
    assert (Hc : c ∈ x :: rem) by apply argmin_from_elem.
    set (τ1 := <[gs := OList (remove_first c (x :: rem))]> τ).
    set (τ2 := <[ordered := OList (acc ++ [c])]> τ1).
    destruct (IH τ2 c (remove_first c (x :: rem)) (acc ++ [c]))
      as (τ' & Hrun & Hext' & Hgs' & Hord').
    + by apply extends_insert_ordered, extends_insert_gs.
    + unfold τ2, τ1. rewrite lookup_insert_ne by done.
      by rewrite lookup_insert_eq.
    + unfold τ2. by rewrite lookup_insert_eq.
    + by apply Hrem.
    + intros y Hy. by apply Hrem, (remove_first_elem c).
    + apply remove_first_length in Hc. simpl in *. lia.
    + exists τ'. split_and!; [|done|done|].
      * cbn [reorder_loop]. rewrite run_bind, (run_len _ _ _ Hgs).
        destruct (0 <? Z.of_nat (length (x :: rem))) eqn:Hpos;
          [|apply Z.ltb_ge in Hpos; simpl (length _) in Hpos; lia].
        rewrite run_bind, (run_read_list _ _ _ Hgs).
        rewrite run_bind, (min_key_run _ (dist_of σ prev)).
        2:{ intros y Hy. apply extends_dist; auto. }
        fold c.
        rewrite run_bind, (run_remove _ _ _ _ Hgs Hc). fold τ1.
        rewrite run_bind, (run_append τ1 ordered c acc).
        2:{ unfold τ1. by rewrite lookup_insert_ne. }
        fold τ2. apply Hrun.
      * rewrite Hord'. simpl. fold c. by rewrite <- app_assoc.
Qed.

End loop.

(** ** The walk *)

Lemma nn_path_perm (d : loc → loc → Z) (n : nat) :
  ∀ (prev : loc) (rem : list loc),
    (length rem ≤ n)%nat → nn_path d n prev rem ≡ₚ rem.
Proof.
  induction n as [|n IH]; intros prev [|x rem] Hn; simpl in *; try done; [lia|].
  set (c := argmin_from (d prev) x rem).
  assert (Hc : c ∈ x :: rem) by apply argmin_from_elem.
  rewrite IH.
  - by apply remove_first_perm.
  - apply remove_first_length in Hc. simpl in Hc. lia.
Qed.

Lemma nn_path_greedy (d : loc → loc → Z) (n : nat) :
  ∀ (prev : loc) (rem : list loc) (k : nat) (p c : loc),
    (prev :: nn_path d n prev rem) !! k = Some p →
    nn_path d n prev rem !! k = Some c →
    ∃ before after,
      foldl (λ rem v, remove_first v rem) rem (take k (nn_path d n prev rem))
      = before ++ c :: after
      ∧ (∀ x, x ∈ before → d p c < d p x)
      ∧ (∀ x, x ∈ after → d p c ≤ d p x).
Proof.
  induction n as [|n IH]; intros prev [|x rem] k p c; simpl; try done.
  set (c0 := argmin_from (d prev) x rem).
  destruct k as [|k]; simpl.
  - intros [= <-] [= <-]. apply argmin_from_first.
  - intros Hp Hc. by apply IH.
Qed.

(** ** reorder_greedy on well-formed glyphs *)

Lemma reorder_greedy_run (σ : store) (gs : loc) (xs : list loc) (index : Z) :
  σ !! gs = Some (OList xs) →
  (∀ x, x ∈ xs → well_formed σ x) →
  - Z.of_nat (length xs) ≤ index < Z.of_nat (length xs) →
  ∃ first r σ',
    Py.getitem xs index = Ok first
    ∧ xs !! position (length xs) index = Some first
    ∧ run (reorder_greedy gs index) σ = (Ok r, σ')
    ∧ σ !! r = None
    ∧ (∀ l, is_Some (σ !! l) → σ' !! l = σ !! l)
    ∧ σ' !! r
      = Some (OList (first :: nn_path (dist_of σ) (length xs) first
                                (delete (position (length xs) index) xs))).
Proof.
  intros Hgs Hwf Hrange.
  set (gs' := fresh (dom σ)).
  set (σ1 := <[gs' := OList xs]> σ).
  assert (Hgs' : σ !! gs' = None) by apply fresh_lookup.
  assert (Hσ1 : σ1 !! gs' = Some (OList xs)) by apply lookup_insert_eq.
  destruct (run_pop σ1 gs' xs index Hσ1 Hrange) as (first & Hget & Hfirst & Hpop).
  set (j := position (length xs) index) in *.
  set (σ2 := <[gs' := OList (delete j xs)]> σ1) in *.
  set (ordered := fresh (dom σ2)).
  set (σ3 := <[ordered := OList [first]]> σ2).
  assert (Hσ2 : σ2 !! ordered = None) by apply fresh_lookup.
  assert (Hne : gs' ≠ ordered).
  { intros Heq. rewrite <- Heq in Hσ2. unfold σ2 in Hσ2.
    by rewrite lookup_insert_eq in Hσ2. }
  assert (Hord : σ !! ordered = None).
  { unfold σ2, σ1 in Hσ2. by rewrite !lookup_insert_ne in Hσ2. }
  assert (Hin : first ∈ xs) by (by eapply list_elem_of_lookup_2).
  destruct (reorder_loop_run σ gs' ordered Hgs' Hord Hne (length xs)
              σ3 first (delete j xs) [first])
    as (σ' & Hloop & Hext & _ & Hres).
  - intros l Hl1 Hl2. unfold σ3, σ2, σ1. by rewrite !lookup_insert_ne.
  - unfold σ3. rewrite lookup_insert_ne by done. apply lookup_insert_eq.
  - apply lookup_insert_eq.
  - by apply Hwf.
  - intros x Hx. by apply Hwf, (list_elem_of_delete_inv _ j).
  - rewrite length_delete by eauto. lia.
  - exists first, ordered, σ'. split_and!; try done.
    + unfold reorder_greedy, list_.
      rewrite run_bind, run_bind, (run_read_list _ _ _ Hgs), run_alloc.
      fold gs' σ1.
      rewrite run_bind, (run_len _ _ _ Hσ1).
      rewrite run_bind, Hpop.
      rewrite run_bind, run_alloc. fold ordered σ3.
      rewrite run_bind, run_bind, (run_read_list σ3 ordered [first])
        by apply lookup_insert_eq.
      rewrite run_lift. cbn [Py.getitem]. simpl.
      rewrite run_bind, Nat2Z.id, Hloop. by rewrite run_ret.
    + intros l [o Hl]. apply Hext; congruence.
Qed.

(** ** reorder_greedy on any store *)

Lemma min_from_cases (σ : store) (prev : loc) (xs : list loc) :
  ∀ (best : loc) (kbest : Z),
    ∃ r, run (min_from (glyph_distance_to prev) best kbest xs) σ = (r, σ)
         ∧ ∀ c, r = Ok c → c = best ∨ c ∈ xs.
Proof.
  induction xs as [|x xs IH]; intros best kbest; simpl.
  - exists (Ok best). split; [done|]. intros c [= <-]. by left.
  - rewrite run_bind, glyph_distance_to_run.
    destruct (glyph_dist σ prev x) as [k|e].
    + destruct (k <? kbest).
      * destruct (IH x k) as (r & -> & Hr). exists r. split; [done|].
        intros c Hc. right. destruct (Hr c Hc) as [->|?]; [by left|by right].
      * destruct (IH best kbest) as (r & -> & Hr). exists r. split; [done|].
        intros c Hc. destruct (Hr c Hc) as [->|?]; [by left|right; by right].
    + exists (Raise e). split; [done|]. intros c [=].
Qed.

Lemma min_key_cases (σ : store) (prev : loc) (xs : list loc) :
  ∃ r, run (min_key (glyph_distance_to prev) xs) σ = (r, σ)
       ∧ ∀ c, r = Ok c → c ∈ xs.
Proof.
  destruct xs as [|x xs]; simpl.
  - exists (Raise ValueError). split; [done|]. intros c [=].
  - rewrite run_bind, glyph_distance_to_run.
    destruct (glyph_dist σ prev x) as [k|e].
    + destruct (min_from_cases σ prev xs x k) as (r & -> & Hr).
      exists r. split; [done|].
      intros c Hc. destruct (Hr c Hc) as [->|?]; [by left|by right].
    + exists (Raise e). split; [done|]. intros c [=].
Qed.

Lemma pop_cases (σ : store) (l : loc) (xs : list loc) (index : Z) :
  σ !! l = Some (OList xs) →
  run (pop l index) σ = (Raise IndexError, σ)
  ∨ ∃ x, xs !! position (length xs) index = Some x
         ∧ run (pop l index) σ
           = (Ok x, <[l := OList (delete (position (length xs) index) xs)]> σ).
Proof.
  intros Hl.
  destruct (decide (- Z.of_nat (length xs) ≤ index < Z.of_nat (length xs)))
    as [Hrange|Hrange].
  - right. destruct (run_pop σ l xs index Hl Hrange) as (x & _ & Hx & Hrun).
    eauto.
  - left. unfold pop. rewrite run_bind, (run_read_list _ _ _ Hl).
    destruct (_ || _) eqn:Hor; [done|].
    destruct (index <? 0) eqn:?; lia.
Qed.

Section frame.
Context (σ : store) (gs ordered : loc) (xs : list loc).
Hypothesis gs_ordered : gs ≠ ordered.

Lemma reorder_loop_inv (fuel : nat) :
  ∀ (τ : store) (prev : loc),
    loop_inv σ gs ordered xs τ →
    loop_inv σ gs ordered xs (run (reorder_loop fuel gs ordered prev) τ).2
    ∧ ((run (reorder_loop fuel gs ordered prev) τ).1 = Ok tt →
       (run (reorder_loop fuel gs ordered prev) τ).2 !! gs = Some (OList [])).
Proof.
  induction fuel as [|fuel IH];
    intros τ prev (Hext & rem & acc & Hgs & Hord & Hperm).
  - simpl. rewrite run_bind, (run_len _ _ _ Hgs).
    destruct (0 <? Z.of_nat (length rem)) eqn:Hpos.
    + rewrite run_raise. simpl. split; [|done].
      split; [done|]. by exists rem, acc.
    + rewrite run_ret. simpl. split.
      * split; [done|]. by exists rem, acc.
      * destruct rem; [done|]. apply Z.ltb_ge in Hpos.
        simpl (length _) in Hpos. lia.
  - cbn [reorder_loop]. rewrite run_bind, (run_len _ _ _ Hgs).
    destruct (0 <? Z.of_nat (length rem)) eqn:Hpos.
    + rewrite run_bind, (run_read_list _ _ _ Hgs), run_bind.
      destruct (min_key_cases τ prev rem) as (r & -> & Hr).
      destruct r as [c|e].
      * assert (Hc : c ∈ rem) by by apply Hr.
        rewrite run_bind, (run_remove _ _ _ _ Hgs Hc).
        rewrite run_bind, (run_append _ ordered c acc)
          by by rewrite lookup_insert_ne.
        apply IH. split.
        -- by apply extends_insert_ordered, extends_insert_gs.
        -- exists (remove_first c rem), (acc ++ [c]). split_and!.
           ++ rewrite lookup_insert_ne by done. apply lookup_insert_eq.
           ++ apply lookup_insert_eq.
           ++ rewrite <- app_assoc. simpl.
              by rewrite (remove_first_perm c rem Hc).
      * simpl. split; [|done]. split; [done|]. by exists rem, acc.
    + rewrite run_ret. simpl. split.
      * split; [done|]. by exists rem, acc.
      * destruct rem; [done|]. apply Z.ltb_ge in Hpos.
        simpl (length _) in Hpos. lia.
Qed.

End frame.

Lemma reorder_greedy_any_store (σ : store) (gs : loc) (index : Z) :
  (∀ l, is_Some (σ !! l) →
        (run (reorder_greedy gs index) σ).2 !! l = σ !! l)
  ∧ (∀ r, (run (reorder_greedy gs index) σ).1 = Ok r →
          σ !! r = None
          ∧ ∃ xs ys, σ !! gs = Some (OList xs)
                     ∧ (run (reorder_greedy gs index) σ).2 !! r
                       = Some (OList ys)
                     ∧ ys ≡ₚ xs).
Proof.
  unfold reorder_greedy, list_. rewrite run_bind, run_bind.
  destruct (read_list_cases σ gs) as [(xs & Hgs & ->)| ->]; [|by split].
  rewrite run_alloc.
  set (gs' := fresh (dom σ)). set (σ1 := <[gs' := OList xs]> σ).
  assert (Hgs' : σ !! gs' = None) by apply fresh_lookup.
  assert (Hσ1 : σ1 !! gs' = Some (OList xs)) by apply lookup_insert_eq.
  assert (Hframe1 : ∀ l, is_Some (σ !! l) → σ1 !! l = σ !! l).
  { intros l [o Hl]. unfold σ1. rewrite lookup_insert_ne; [done|congruence]. }
  rewrite run_bind, (run_len _ _ _ Hσ1), run_bind.
  destruct (pop_cases σ1 gs' xs index Hσ1) as [->|(first & Hfirst & ->)];
    [by split|].
  set (j := position (length xs) index) in *.
  set (σ2 := <[gs' := OList (delete j xs)]> σ1).
  rewrite run_bind, run_alloc.
  set (ordered := fresh (dom σ2)).
  set (σ3 := <[ordered := OList [first]]> σ2).
  assert (Hσ2 : σ2 !! ordered = None) by apply fresh_lookup.
  assert (Hne : gs' ≠ ordered).
  { intros Heq. rewrite <- Heq in Hσ2. unfold σ2 in Hσ2.
    by rewrite lookup_insert_eq in Hσ2. }
  assert (Hord : σ !! ordered = None).
  { unfold σ2, σ1 in Hσ2. by rewrite !lookup_insert_ne in Hσ2. }
  rewrite run_bind, run_bind, (run_read_list σ3 ordered [first])
    by apply lookup_insert_eq.
  rewrite run_lift. cbn [Py.getitem]. simpl.
  rewrite run_bind.
  destruct (reorder_loop_inv σ gs' ordered xs Hne (Z.to_nat (Z.of_nat (length xs)))
              σ3 first) as [(Hext & rem & acc & Hrem & Hacc & Hperm) Hdone].
  { split.
    - intros l Hl1 Hl2. unfold σ3, σ2, σ1. by rewrite !lookup_insert_ne.
    - exists (delete j xs), [first]. split_and!.
      + unfold σ3. rewrite lookup_insert_ne by done. apply lookup_insert_eq.
      + apply lookup_insert_eq.
      + simpl. symmetry. by apply delete_Permutation. }
  destruct (run (reorder_loop _ gs' ordered first) σ3) as [[[]|e] σ'];
    simpl in *.
  - split.
    + intros l [o Hl]. apply Hext; congruence.
    + intros r [= <-]. split; [done|].
      exists xs, acc. split_and!; [done|done|].
      rewrite Hdone in Hrem by done. injection Hrem as <-.
      by rewrite app_nil_r in Hperm.
  - split; [|done]. intros l [o Hl]. apply Hext; congruence.
Qed.

(** ** The bound of the loop is never reached *)

Lemma glyph_dist_outcome (σ : store) (p x : loc) :
  (∃ d, glyph_dist σ p x = Ok d) ∨ glyph_dist σ p x = Raise TypeError.
Proof.
  unfold glyph_dist, glyph_distance_to. rewrite run_bind.
  destruct (read_glyph_cases σ x) as [(gx & _ & ->)| ->]; [|by right].
  rewrite run_bind.
  destruct (read_glyph_cases σ p) as [(gp & _ & ->)| ->]; [|by right].
  rewrite run_lift. simpl. unfold Glyph.distance_to.
  destruct (Glyph.start gx) as [[??]|], (Glyph.end_ gp) as [[??]|];
    simpl; eauto.
Qed.

Lemma min_from_no_fuel (σ : store) (prev : loc) (xs : list loc) :
  ∀ (best : loc) (kbest : Z),
    (run (min_from (glyph_distance_to prev) best kbest xs) σ).1
    ≠ Raise OutOfFuel.
Proof.
  induction xs as [|x xs IH]; intros best kbest; simpl; [done|].
  rewrite run_bind, glyph_distance_to_run.
  destruct (glyph_dist_outcome σ prev x) as [[k ->]| ->]; [|done].
  destruct (k <? kbest); apply IH.
Qed.

Lemma min_key_no_fuel (σ : store) (prev : loc) (xs : list loc) :
  (run (min_key (glyph_distance_to prev) xs) σ).1 ≠ Raise OutOfFuel.
Proof.
  destruct xs as [|x xs]; simpl; [done|].
  rewrite run_bind, glyph_distance_to_run.
  destruct (glyph_dist_outcome σ prev x) as [[k ->]| ->]; [|done].
  apply min_from_no_fuel.
Qed.

Lemma reorder_loop_fuel (gs ordered : loc) (fuel : nat) :
  gs ≠ ordered →
  ∀ (τ : store) (prev : loc) (rem : list loc),
    τ !! gs = Some (OList rem) →
    (length rem ≤ fuel)%nat →
    (run (reorder_loop fuel gs ordered prev) τ).1 ≠ Raise OutOfFuel.
Proof.
  intros Hne. induction fuel as [|fuel IH]; intros τ prev rem Hgs Hfuel.
  - destruct rem; [|simpl in Hfuel; lia].
    simpl. by rewrite run_bind, (run_len _ _ _ Hgs).
  - cbn [reorder_loop]. rewrite run_bind, (run_len _ _ _ Hgs).
    destruct (0 <? Z.of_nat (length rem)) eqn:Hpos; [|done].
    rewrite run_bind, (run_read_list _ _ _ Hgs), run_bind.
    pose proof (min_key_no_fuel τ prev rem) as Hmin.
    destruct (min_key_cases τ prev rem) as (r & Hr & Hin).
    rewrite Hr in Hmin |- *. destruct r as [c|e]; [|simpl in *; congruence].
    assert (Hc : c ∈ rem) by by apply Hin.
    rewrite run_bind, (run_remove _ _ _ _ Hgs Hc).
    set (τ1 := <[gs := OList (remove_first c rem)]> τ).
    rewrite run_bind. unfold append at 1. rewrite run_bind.
    destruct (read_list_cases τ1 ordered) as [(acc & _ & ->)| ->]; [|done].
    rewrite run_write_list.
    apply (IH _ _ (remove_first c rem)).
    + rewrite lookup_insert_ne by done. apply lookup_insert_eq.
    + apply remove_first_length in Hc. lia.
Qed.

(** [reorder_greedy] never runs out of iterations: the outcome
    [OutOfFuel] does not occur, whatever the store and the arguments. *)
Lemma reorder_greedy_fuel (σ : store) (gs : loc) (index : Z) :
  (run (reorder_greedy gs index) σ).1 ≠ Raise OutOfFuel.
Proof.
  unfold reorder_greedy, list_. rewrite run_bind, run_bind.
  destruct (read_list_cases σ gs) as [(xs & Hgs & ->)| ->]; [|done].
  rewrite run_alloc.
  set (gs' := fresh (dom σ)). set (σ1 := <[gs' := OList xs]> σ).
  assert (Hσ1 : σ1 !! gs' = Some (OList xs)) by apply lookup_insert_eq.
  rewrite run_bind, (run_len _ _ _ Hσ1), run_bind.
  destruct (pop_cases σ1 gs' xs index Hσ1) as [->|(first & Hfirst & ->)];
    [done|].
  set (j := position (length xs) index) in *.
  set (σ2 := <[gs' := OList (delete j xs)]> σ1).
  rewrite run_bind, run_alloc.
  set (ordered := fresh (dom σ2)).
  set (σ3 := <[ordered := OList [first]]> σ2).
  assert (Hσ2 : σ2 !! ordered = None) by apply fresh_lookup.
  assert (Hne : gs' ≠ ordered).
  { intros Heq. rewrite <- Heq in Hσ2. unfold σ2 in Hσ2.
    by rewrite lookup_insert_eq in Hσ2. }
  rewrite run_bind, run_bind, (run_read_list σ3 ordered [first])
    by apply lookup_insert_eq.
  rewrite run_lift. cbn [Py.getitem]. simpl.
  rewrite run_bind.
  pose proof (reorder_loop_fuel gs' ordered (Z.to_nat (Z.of_nat (length xs)))
                Hne σ3 first (delete j xs)) as Hloop.
  destruct (run (reorder_loop _ gs' ordered first) σ3) as [[[]|e] σ'];
    [done|]. simpl in *. intros [= ->]. apply Hloop; [| |done].
  - unfold σ3. rewrite lookup_insert_ne by done. apply lookup_insert_eq.
  - rewrite length_delete by eauto. lia.
Qed.

(** ** The store the script lays out *)

Lemma getitem_position {A} (l : list A) (index : Z) :
  - Z.of_nat (length l) ≤ index < Z.of_nat (length l) →
  Py.getitem l index = match l !! position (length l) index with
                       | Some x => Ok x
                       | None => Raise IndexError
                       end.
Proof.
  intros Hrange. unfold Py.getitem, position.
  destruct (index <? 0) eqn:?; by destruct (_ || _) eqn:?; [lia|].
Qed.

Lemma box_loop (gs : list Glyph.t) :
  ∀ (σ : store) (ls0 : list loc),
    ∃ ls σ',
      run (for_acc gs (λ ls g, l ← alloc (OGlyph g); mret (ls ++ [l])) ls0) σ
      = (Ok (ls0 ++ ls), σ')
      ∧ (∀ l, is_Some (σ !! l) → σ' !! l = σ !! l)
      ∧ Forall (is_glyph σ') ls
      ∧ deref σ' <$> ls = gs.
Proof.
  induction gs as [|g gs IH]; intros σ ls0; simpl.
  - exists [], σ. rewrite run_ret, app_nil_r. by split_and!.
  - rewrite run_bind, run_bind, run_alloc, run_ret.
    set (l := fresh (dom σ)). set (σ1 := <[l := OGlyph g]> σ).
    destruct (IH σ1 (ls0 ++ [l])) as (ls & σ' & -> & Hframe & Hls & Hgs).
    assert (Hl : σ' !! l = Some (OGlyph g)).
    { rewrite Hframe; unfold σ1; rewrite lookup_insert_eq; eauto. }
    assert (Hne : ∀ l0, is_Some (σ !! l0) → l ≠ l0).
    { intros l0 [o Hl0] <-. unfold l in Hl0.
      by rewrite fresh_lookup in Hl0. }
    exists (l :: ls), σ'. split_and!.
    + by rewrite <- app_assoc.
    + intros l0 Hl0. rewrite Hframe.
      * by apply lookup_insert_ne, Hne.
      * unfold σ1. rewrite lookup_insert_ne; [done|]. by apply Hne.
    + constructor; [by exists g|done].
    + simpl. f_equal; [|done]. unfold deref. by rewrite Hl.
Qed.

Lemma unbox_loop (σ : store) (ys : list loc) :
  Forall (is_glyph σ) ys →
  ∀ acc,
    run (for_acc ys (λ gs l, g ← read_glyph l; mret (gs ++ [g])) acc) σ
    = (Ok (acc ++ (deref σ <$> ys)), σ).
Proof.
  induction 1 as [|y ys [g Hy] _ IH]; intros acc; simpl.
  - by rewrite run_ret, app_nil_r.
  - rewrite run_bind, run_bind, (run_read_glyph _ _ _ Hy), run_ret, IH.
    unfold deref at 2. rewrite Hy. by rewrite <- app_assoc.
Qed.

(** On glyphs whose starts and ends are present the call of the script
    returns a permutation that begins with the glyph at the index. *)
Lemma reorder_greedy_boxed_perm (gs : list Glyph.t) (index : Z) :
  Forall (λ g, is_Some (Glyph.start g) ∧ is_Some (Glyph.end_ g)) gs →
  - Z.of_nat (length gs) ≤ index < Z.of_nat (length gs) →
  ∃ first ys,
    reorder_greedy_boxed gs index = Ok (first :: ys)
    ∧ first :: ys ≡ₚ gs
    ∧ Py.getitem gs index = Ok first.
Proof.
  intros Hwf Hrange. unfold reorder_greedy_boxed, box.
  rewrite run_bind, run_bind.
  destruct (box_loop gs ∅ []) as (ls & σ0 & -> & _ & Hls & Hgs).
  simpl app. rewrite run_alloc.
  set (lst := fresh (dom σ0)). set (σ := <[lst := OList ls]> σ0).
  assert (Hlst : σ !! lst = Some (OList ls)) by apply lookup_insert_eq.
  assert (Hσ : ∀ l, l ∈ ls → σ !! l = σ0 !! l ∧ is_glyph σ0 l).
  { intros l Hl. rewrite Forall_forall in Hls. specialize (Hls l Hl).
    split; [|done]. apply lookup_insert_ne. intros <-.
    destruct Hls as [g Hg]. unfold lst in Hg.
    by rewrite fresh_lookup in Hg. }
  assert (Hlen : length ls = length gs) by by rewrite <- Hgs, length_fmap.
  destruct (reorder_greedy_run σ lst ls index Hlst)
    as (first & r & σ' & _ & Hfirst & Hrun & _ & Hframe & Hres).
  { intros l Hl. destruct (Hσ l Hl) as [Heq [g Hg]].
    rewrite Forall_forall in Hwf.
    destruct (Hwf g) as [[s Hs] [e He]].
    { rewrite <- Hgs. apply list_elem_of_fmap. exists l. split; [|done].
      unfold deref. by rewrite Hg. }
    exists g, s, e. by rewrite Heq. }
  { by rewrite Hlen. }
  rewrite run_bind, Hrun.
  set (j := position (length ls) index) in *.
  set (path := nn_path (dist_of σ) (length ls) first (delete j ls)) in *.
  assert (Hperm : first :: path ≡ₚ ls).
  { rewrite (delete_Permutation ls j first Hfirst). f_equiv.
    apply nn_path_perm. rewrite length_delete by eauto. lia. }
  assert (Hderef : ∀ l, l ∈ ls → is_glyph σ' l ∧ deref σ' l = deref σ0 l).
  { intros l Hl. destruct (Hσ l Hl) as [Heq [g Hg]].
    assert (Hl' : σ' !! l = Some (OGlyph g)).
    { rewrite Hframe; rewrite Heq; [done|by exists (OGlyph g)]. }
    split; [by exists g|]. unfold deref. by rewrite Hl', Hg. }
  unfold unbox. rewrite run_bind, (run_read_list _ _ _ Hres), unbox_loop.
  2:{ apply Forall_forall. intros l Hl. apply Hderef. by rewrite <- Hperm. }
  simpl. exists (deref σ' first), (deref σ' <$> path).
  assert (Hmap : deref σ' <$> ls = gs).
  { rewrite <- Hgs. apply list_fmap_ext. intros i l Hl.
    by apply Hderef, (list_elem_of_lookup_2 _ i). }
  split_and!; [done| |].
  - rewrite <- Hmap, <- Hperm. done.
  - rewrite getitem_position by done. rewrite <- Hlen. fold j.
    by rewrite <- Hmap, list_lookup_fmap, Hfirst.
Qed.

(** C4, as the code behaves: on a list of glyph objects whose starts and
    ends are all present, and for an index that [pop] accepts,
    [reorder_greedy] returns a new list that is a permutation of the
    input (same glyph objects, same length), whose first element is the
    glyph that the input holds at that index; every later element is,
    among the glyphs not yet visited and in the order the input has them,
    the first of those nearest to the end of the element before it. *)
Theorem reorder_greedy_permutation (σ : store) (gs : loc) (xs : list loc)
    (index : Z) :
  σ !! gs = Some (OList xs) →
  (∀ x, x ∈ xs → well_formed σ x) →
  - Z.of_nat (length xs) ≤ index < Z.of_nat (length xs) →
  ∃ r ys σ',
    run (reorder_greedy gs index) σ = (Ok r, σ')
    ∧ σ' !! r = Some (OList ys)
    ∧ ys ≡ₚ xs
    ∧ length ys = length xs
    ∧ (∃ first, ys !! 0%nat = Some first ∧ Py.getitem xs index = Ok first)
    ∧ ∀ k p c,
        ys !! k = Some p → ys !! S k = Some c →
        first_nearest σ p c
          (unvisited xs (position (length xs) index) (take k (tail ys))).
Proof.
  intros Hgs Hwf Hrange.
  destruct (reorder_greedy_run σ gs xs index Hgs Hwf Hrange)
    as (first & r & σ' & Hget & Hfirst & Hrun & _ & _ & Hres).
  set (j := position (length xs) index) in *.
  set (path := nn_path (dist_of σ) (length xs) first (delete j xs)) in *.
  assert (Hperm : first :: path ≡ₚ xs).
  { rewrite (delete_Permutation xs j first Hfirst). f_equiv.
    apply nn_path_perm. rewrite length_delete by eauto. lia. }
  exists r, (first :: path), σ'. split_and!; try done.
  - by rewrite Hperm.
  - by exists first.
  - intros k p c Hp Hc. simpl in Hc. simpl tail.
    destruct (nn_path_greedy (dist_of σ) (length xs) first (delete j xs) k p c
                Hp Hc) as (before & after & Heq & Hb & Ha).
    fold path in Heq.
    assert (Hwfp : well_formed σ p).
    { apply Hwf. rewrite <- Hperm. by eapply list_elem_of_lookup_2. }
    assert (Hsub : ∀ x, x ∈ before ++ c :: after → well_formed σ x).
    { intros x Hx. apply Hwf, (unvisited_elem x xs (take k path) j).
      unfold unvisited. by rewrite Heq. }
    exists before, after, (dist_of σ p c). split_and!.
    + done.
    + apply glyph_dist_well_formed; [done|].
      apply Hsub, elem_of_app. right. by left.
    + intros x Hx. exists (dist_of σ p x). split; [|by apply Hb].
      apply glyph_dist_well_formed; [done|].
      apply Hsub, elem_of_app. by left.
    + intros x Hx. exists (dist_of σ p x). split; [|by apply Ha].
      apply glyph_dist_well_formed; [done|].
      apply Hsub, elem_of_app. right. by right.
Qed.

Lemma reorder_greedy_permutation_witness :
  three_dots !! 4%positive = Some (OList [1; 2; 3]%positive)
  ∧ ∃ r ys σ',
      run (reorder_greedy 4%positive 0) three_dots = (Ok r, σ')
      ∧ σ' !! r = Some (OList ys)
      ∧ ys ≡ₚ [1; 2; 3]%positive.
Proof.
  split; [reflexivity|].
  destruct (reorder_greedy_permutation three_dots 4%positive
              [1; 2; 3]%positive 0) as (r & ys & σ' & Hrun & Hr & Hperm & _).
  - reflexivity.
  - intros x Hx.
    elem_cases Hx;
      (eexists _, _, _; split_and!; [vm_compute; reflexivity|reflexivity..]).
  - simpl. lia.
  - by exists r, ys, σ'.
Defined.

(** A glyph that starts with its pen-down has no start; next to another
    glyph it makes [reorder_greedy] raise [TypeError], and no permutation
    is returned.  Both glyphs are what the script builds from the text. *)
Lemma reorder_greedy_raises_on_absent_start :
  (run (read_glyphs (dot_text 0 0 ++ no_start_text)) (Output [] [])).1
  = Ok [dot 0 0; no_start]
  ∧ reorder_greedy_boxed [dot 0 0; no_start] 0 = Raise TypeError
  ∧ ¬ ∃ ys, reorder_greedy_boxed [dot 0 0; no_start] 0 = Ok ys.
Proof.
  split_and!; [by vm_compute | by vm_compute |].
  intros [ys Hys]. vm_compute in Hys. discriminate.
Qed.

(** ** The scenario of three glyphs *)

Lemma dist_of_glyphs (σ : store) (p x : loc) (gp gx : Glyph.t) :
  σ !! p = Some (OGlyph gp) → σ !! x = Some (OGlyph gx) →
  dist_of σ p x = match Glyph.distance_to gp gx with
                  | Ok d => d
                  | Raise _ => 0
                  end.
Proof.
  intros Hp Hx. unfold dist_of, glyph_dist, glyph_distance_to.
  rewrite run_bind, (run_read_glyph _ _ _ Hx).
  by rewrite run_bind, (run_read_glyph _ _ _ Hp), run_lift.
Qed.

(** C5: with [G1] at (0,0), [G2] at (10,0) and [G3] at (5,5), each
    starting and ending at its point, [reorder_greedy] on [G1, G2, G3]
    from index 0 gives [G1, G3, G2], in the store the script lays out as
    in any store that holds the three glyphs; the travel between glyphs
    is 15 in the original order and 10 in the greedy one, which is less. *)
Theorem greedy_three_glyphs (i1 i2 i3 : list Instruction.t) :
  let G1 := at_point 0 0 i1 in
  let G2 := at_point 10 0 i2 in
  let G3 := at_point 5 5 i3 in
  reorder_greedy_boxed [G1; G2; G3] 0 = Ok [G1; G3; G2]
  ∧ (∀ (σ : store) (gs a b c : loc),
       σ !! gs = Some (OList [a; b; c]) →
       σ !! a = Some (OGlyph G1) →
       σ !! b = Some (OGlyph G2) →
       σ !! c = Some (OGlyph G3) →
       ∃ r σ', run (reorder_greedy gs 0) σ = (Ok r, σ')
               ∧ σ' !! r = Some (OList [a; c; b]))
  ∧ total_penup_travel [G1; G2; G3] = Ok 15
  ∧ total_penup_travel [G1; G3; G2] = Ok 10
  ∧ 10 < 15.
Proof.
  intros G1 G2 G3. split_and!; [by vm_compute| |done|done|done].
  intros σ gs a b c Hgs Ha Hb Hc.
  destruct (reorder_greedy_run σ gs [a; b; c] 0 Hgs)
    as (first & r & σ' & _ & Hfirst & Hrun & _ & _ & Hres).
  - intros x Hx. elem_cases Hx; eexists _, _, _; eauto.
  - simpl. lia.
  - injection Hfirst as <-. exists r, σ'. split; [done|].
    rewrite Hres. do 3 f_equal.
    assert (Hbc : b ≠ c).
    { intros ->. rewrite Hb in Hc. discriminate. }
    change (length [a; b; c]) with 3%nat.
    change (delete (position 3 0) [a; b; c]) with [b; c].
    cbn [nn_path argmin_from].
    rewrite (dist_of_glyphs σ a c G1 G3 Ha Hc).
    rewrite (dist_of_glyphs σ a b G1 G2 Ha Hb).
    change (Glyph.distance_to G1 G3) with (Ok 5 : result Z).
    change (Glyph.distance_to G1 G2) with (Ok 10 : result Z).
    simpl (5 <? 10). cbv iota.
    rewrite (remove_first_cons_ne c b) by done.
    rewrite remove_first_cons_eq. cbn [argmin_from].
    by rewrite remove_first_cons_eq.
Qed.

Lemma greedy_three_glyphs_witness :
  three_dots !! 4%positive = Some (OList [1; 2; 3]%positive)
  ∧ ∃ r σ', run (reorder_greedy 4%positive 0) three_dots = (Ok r, σ')
            ∧ σ' !! r = Some (OList [1; 3; 2]%positive).
Proof.
  split; [reflexivity|].
  exact (proj1 (proj2 (greedy_three_glyphs [] [] []))
           three_dots 4%positive 1%positive 2%positive 3%positive
           eq_refl eq_refl eq_refl eq_refl).
Defined.

(** ** The arguments of reorder_greedy are left alone *)

(** C10: whatever the store, the list and the index are, and whether the
    call returns or raises, every object that exists before the call of
    [reorder_greedy] is the same after it: the caller's list and every
    glyph object.  When the call returns, its result is a list object
    that did not exist before, and its elements are the glyph objects of
    the caller's list. *)
Theorem reorder_greedy_frame (σ : store) (gs : loc) (index : Z) :
  (∀ l, is_Some (σ !! l) →
        (run (reorder_greedy gs index) σ).2 !! l = σ !! l)
  ∧ (∀ r, (run (reorder_greedy gs index) σ).1 = Ok r →
          σ !! r = None
          ∧ ∃ xs ys, σ !! gs = Some (OList xs)
                     ∧ (run (reorder_greedy gs index) σ).2 !! r
                       = Some (OList ys)
                     ∧ ys ≡ₚ xs).
Proof. apply reorder_greedy_any_store. Qed.

Lemma reorder_greedy_frame_witness :
  (run (reorder_greedy 4%positive 0) three_dots).1 = Ok 6%positive
  ∧ three_dots !! 6%positive = None
  ∧ (run (reorder_greedy 4%positive 0) three_dots).2 !! 4%positive
    = Some (OList [1; 2; 3]%positive).
Proof.
  split; [by vm_compute|]. split.
  - exact (proj1 (proj2 (reorder_greedy_frame three_dots 4%positive 0)
                    6%positive eq_refl)).
  - exact (proj1 (reorder_greedy_frame three_dots 4%positive 0)
             4%positive (ex_intro _ _ eq_refl)).
Defined.

(** ** The script on an empty input *)

Lemma calm_ret {A} (a : A) : calm (mret a : M output A).
Proof. by intros o. Qed.

Lemma calm_lift {A} (r : result A) :
  r ≠ Raise SystemExit → calm (lift r : M output A).
Proof. by intros Hr o. Qed.

Lemma calm_eprint (s : string) : calm (eprint s).
Proof. by intros o. Qed.

Lemma calm_bind {A B} (m : M output A) (f : A → M output B) :
  calm m → (∀ a, calm (f a)) → calm (m ≫= f).
Proof.
  intros Hm Hf o. rewrite run_bind. destruct (Hm o) as [Hout Hexit].
  destruct (run m o) as [[a|e] o1]; simpl in *.
  - destruct (Hf a o1) as [Hout' Hexit']. split; [congruence|done].
  - split; [done|]. congruence.
Qed.

Lemma aborts_bind {A B} (m : M output A) (f : A → M output B) :
  calm m → (∀ a, aborts (f a)) → aborts (m ≫= f).
Proof.
  intros Hm Hf o. rewrite run_bind. destruct (Hm o) as [Hout Hexit].
  destruct (run m o) as [[a|e] o1]; simpl in *.
  - destruct (Hf a o1) as [Hout' Hexit']. split; [congruence|done].
  - split; [done|]. exists e. split; [done|congruence].
Qed.

Lemma calm_for_acc {A B} (xs : list A) (body : B → A → M output B) (b : B) :
  (∀ b x, calm (body b x)) → calm (for_acc xs body b).
Proof.
  intros Hbody. revert b. induction xs as [|x xs IH]; intros b; simpl.
  - apply calm_ret.
  - by apply calm_bind.
Qed.

Lemma getitem_outcome {A} (l : list A) (i : Z) :
  (∃ x, Py.getitem l i = Ok x) ∨ Py.getitem l i = Raise IndexError.
Proof.
  unfold Py.getitem. destruct (_ || _); [by right|].
  destruct (l !! _); eauto.
Qed.

(** Only [IndexError] leaves the parser. *)
Lemma Instruction_init_outcome (raw : string) :
  (∃ i, Instruction.__init__ raw = Ok i)
  ∨ Instruction.__init__ raw = Raise IndexError.
Proof.
  unfold Instruction.__init__, Instruction._coords.
  set (parts := Py.split "," (Py.rstrip raw)).
  destruct (getitem_outcome parts 0) as [[tc ->]| ->]; [|by right]. simpl.
  destruct (getitem_outcome parts 1) as [[p1 ->]| ->]; [|by right]. simpl.
  destruct (int_outcome p1) as [[x ->]| ->]; simpl; [|eauto].
  destruct (getitem_outcome parts 2) as [[p2 ->]| ->]; [|by right]. simpl.
  destruct (int_outcome p2) as [[y ->]| ->]; simpl; eauto.
Qed.

Lemma distances_from_outcome {A} (distance_to : A → A → result Z) :
  (∀ a b, (∃ d, distance_to a b = Ok d) ∨ distance_to a b = Raise TypeError) →
  ∀ (rest : list A) (prev : A),
    (∃ ds, distances_from distance_to prev rest = Ok ds)
    ∨ distances_from distance_to prev rest = Raise TypeError.
Proof.
  intros Hd. induction rest as [|x rest IH]; intros prev; simpl; [eauto|].
  destruct (Hd prev x) as [[d ->]| ->]; simpl; [|by right].
  destruct (IH x) as [[ds ->]| ->]; simpl; eauto.
Qed.

Lemma Instruction_distance_to_outcome (a b : Instruction.t) :
  (∃ d, Instruction.distance_to a b = Ok d)
  ∨ Instruction.distance_to a b = Raise TypeError.
Proof.
  unfold Instruction.distance_to.
  destruct (Instruction.coords b) as [[??]|], (Instruction.coords a) as [[??]|];
    simpl; eauto.
Qed.

Lemma Glyph_distance_to_outcome (g h : Glyph.t) :
  (∃ d, Glyph.distance_to g h = Ok d) ∨ Glyph.distance_to g h = Raise TypeError.
Proof.
  unfold Glyph.distance_to.
  destruct (Glyph.start h) as [[??]|], (Glyph.end_ g) as [[??]|];
    simpl; eauto.
Qed.

Lemma total_penup_travel_outcome (gs : list Glyph.t) :
  total_penup_travel gs ≠ Raise SystemExit.
Proof.
  unfold total_penup_travel, distance_between_each_pair, distances.
  destruct gs as [|g gs]; [done|].
  by destruct (distances_from_outcome _ Glyph_distance_to_outcome gs g)
    as [[ds ->]| ->].
Qed.

Lemma total_travel_outcome (gs : list Glyph.t) :
  total_travel gs ≠ Raise SystemExit.
Proof.
  unfold total_travel, distance_between_moves, distances.
  destruct (iter_moves gs) as [|m ms]; [done|].
  by destruct (distances_from_outcome _ Instruction_distance_to_outcome ms m)
    as [[ds ->]| ->].
Qed.

Lemma calm_report (label : string) (value : result Z) :
  value ≠ Raise SystemExit → calm (report label value).
Proof.
  intros Hv. apply calm_bind; [by apply calm_lift|].
  intros d. apply calm_eprint.
Qed.

Lemma calm_read_glyphs (input : list string) : calm (read_glyphs input).
Proof.
  apply calm_bind.
  - apply calm_for_acc. intros acc line. apply calm_bind; [|intros; apply calm_ret].
    apply calm_lift. by destruct (Instruction_init_outcome line) as [[i ->]| ->].
  - intros insts o. unfold segment. rewrite run_bind.
    destruct (segment_loop insts [] [] o) as (o' & Hrun & Hout); [done|].
    simpl in Hrun. by rewrite Hrun.
Qed.

(** With fewer than fifteen glyphs the step of the [range] is zero. *)
Lemma range_zero_step (n : Z) :
  0 ≤ n < 15 → Py.range 0 n (n `div` 15) = Raise ValueError.
Proof.
  intros Hn. unfold Py.range. by rewrite Z.div_small.
Qed.

(** Whatever the input is, when fewer than fifteen glyphs are left after
    deduplication the script ends with an exception and has written
    nothing to the command stream. *)
Lemma main_few_glyphs (input : list string) (o : output) :
  (∀ gs o', run (read_glyphs input) o = (Ok gs, o') →
            (length (dedupe gs) < 15)%nat) →
  stdout (run (main input) o).2 = stdout o
  ∧ ∃ e, (run (main input) o).1 = Raise e ∧ e ≠ SystemExit.
Proof.
  intros Hfew. unfold main. rewrite run_bind.
  destruct (calm_read_glyphs input o) as [Hout Hexit].
  destruct (run (read_glyphs input) o) as [[gs|e] o1] eqn:Hread; simpl in *.
  - specialize (Hfew gs o1 eq_refl).
    rewrite <- Hout.
    apply aborts_bind; [apply calm_eprint|intros _].
    apply aborts_bind;
      [apply calm_report, total_penup_travel_outcome|intros _].
    apply aborts_bind; [apply calm_report, total_travel_outcome|intros _].
    apply aborts_bind;
      [apply calm_report, total_penup_travel_outcome|intros _].
    apply aborts_bind; [apply calm_report, total_travel_outcome|intros _].
    apply aborts_bind;
      [apply calm_report, total_penup_travel_outcome|intros _].
    apply aborts_bind; [apply calm_report, total_travel_outcome|intros _].
    intros o2. rewrite run_bind, run_lift, range_zero_step by lia.
    split; [done|]. by exists ValueError.
  - split; [done|]. exists e. split; [done|congruence].
Qed.

(** Three strokes are too few: the statistics are reported and the
    script stops on the zero step. *)
Example main_three_strokes :
  run (main (dot_text 0 0 ++ dot_text 10 0 ++ dot_text 5 5)) (Output [] [])
  = (Raise ValueError,
     Output []
       ["Total Glyphs: 3";
        "Initial penup distance: 15"; "Initial total distance: 15";
        "Deduped penup distance: 15"; "Deduped total distance: 15";
        "Sorted penup distance:  10"; "Sorted total distance: 10"]).
Proof. by vm_compute. Qed.

(** C2, as the code behaves: on an input without any line the script
    reports zero for the travel statistics of the original, deduplicated
    and sorted orders, then [range(0, 0, 0)] raises [ValueError]: nothing
    is written to the command stream, not even [C14,END]. *)
Theorem main_empty_input_raises :
  run (main []) (Output [] [])
  = (Raise ValueError,
     Output []
       ["Total Glyphs: 0";
        "Initial penup distance: 0"; "Initial total distance: 0";
        "Deduped penup distance: 0"; "Deduped total distance: 0";
        "Sorted penup distance:  0"; "Sorted total distance: 0"]).
Proof. by vm_compute. Qed.

(** * Further properties *)

(** ** The parser *)

Lemma rstrip_fixed (s : string) :
  (∀ c, last_char s = Some c → Py.isspace c = false) → Py.rstrip s = s.
Proof.
  induction s as [|a s IH]; intros Hlast; simpl; [done|].
  destruct s as [|b s].
  - simpl. by rewrite (Hlast a).
  - rewrite IH by (intros c Hc; by apply Hlast). done.
Qed.

Lemma rstrip_idempotent (s : string) : Py.rstrip (Py.rstrip s) = Py.rstrip s.
Proof.
  apply rstrip_fixed. by destruct (rstrip_spec s) as (ws & _ & _ & Hlast).
Qed.

(** X1: what a parsed instruction holds.  Its line is the raw line
    without trailing whitespace, its parts are the comma-separated fields
    of that line, its typecode is the first field, its typename is
    [pendown], [penup] or [move] exactly for the typecodes [C13], [C14]
    and [C17] and [other] for every other typecode, and its coordinates
    are [(x, y)] exactly when the second and third fields are the
    integers [x] and [y]. *)
Theorem Instruction_init_fields (raw : string) (i : Instruction.t) :
  Instruction.__init__ raw = Ok i →
  Instruction.line i = Py.rstrip raw
  ∧ Instruction.parts i = Py.split "," (Instruction.line i)
  ∧ head (Instruction.parts i) = Some (Instruction.typecode i)
  ∧ (Instruction.typename i = "pendown"%string
     ↔ Instruction.typecode i = "C13"%string)
  ∧ (Instruction.typename i = "penup"%string
     ↔ Instruction.typecode i = "C14"%string)
  ∧ (Instruction.typename i = "move"%string
     ↔ Instruction.typecode i = "C17"%string)
  ∧ (Instruction.typename i = "other"%string
     ↔ Instruction.typecode i ∉ ["C13"; "C14"; "C17"]%string)
  ∧ (∀ x y, Instruction.coords i = Some (x, y)
            ↔ ∃ p1 p2, Instruction.parts i !! 1%nat = Some p1
                       ∧ Instruction.parts i !! 2%nat = Some p2
                       ∧ Py.int p1 = Ok x ∧ Py.int p2 = Ok y).
Proof.
  unfold Instruction.__init__, Instruction._coords.
  set (parts := Py.split "," (Py.rstrip raw)).
  rewrite !getitem_nonneg by lia.
  change (Z.to_nat 0) with 0%nat. change (Z.to_nat 1) with 1%nat.
  change (Z.to_nat 2) with 2%nat.
  destruct (parts !! 0%nat) as [tc|] eqn:Htc; simpl; [|done].
  assert (Hname :
    (Instruction._typename tc = "pendown"%string ↔ tc = "C13"%string)
    ∧ (Instruction._typename tc = "penup"%string ↔ tc = "C14"%string)
    ∧ (Instruction._typename tc = "move"%string ↔ tc = "C17"%string)
    ∧ (Instruction._typename tc = "other"%string
       ↔ tc ∉ ["C13"; "C14"; "C17"]%string)).
  { unfold Instruction._typename, Instruction.types.
    destruct (decide (tc = "C13"%string)) as [->|H13].
    { split_and!; split; try done. intros Hn. exfalso. apply Hn. by left. }
    destruct (decide (tc = "C14"%string)) as [->|H14].
    { split_and!; split; try done. intros Hn. exfalso. apply Hn.
      right. by left. }
    destruct (decide (tc = "C17"%string)) as [->|H17].
    { split_and!; split; try done. intros Hn. exfalso. apply Hn.
      right. right. by left. }
    rewrite !lookup_insert_ne, lookup_singleton_ne by done. simpl.
    split_and!; split; try done. intros _ Hin.
    elem_cases Hin; done. }
  destruct Hname as (Hdown & Hup & Hmove & Hother).
  destruct (parts !! 1%nat) as [p1|] eqn:Hp1; simpl; [|done].
  destruct (int_outcome p1) as [[x Hx]|Hx]; rewrite Hx; simpl.
  - destruct (parts !! 2%nat) as [p2|] eqn:Hp2; simpl; [|done].
    destruct (int_outcome p2) as [[y Hy]|Hy]; rewrite Hy; simpl.
    + intros [= <-]. simpl. split_and!; try done.
      * by destruct parts.
      * intros x' y'. split.
        -- intros [= <- <-]. exists p1, p2. by rewrite Hp1, Hp2.
        -- intros (q1 & q2 & Hq1 & Hq2 & Hx' & Hy').
           rewrite Hp1 in Hq1. rewrite Hp2 in Hq2.
           injection Hq1 as <-. injection Hq2 as <-. congruence.
    + intros [= <-]. simpl. split_and!; try done.
      * by destruct parts.
      * intros x' y'. split; [done|].
        intros (q1 & q2 & Hq1 & Hq2 & Hx' & Hy').
        rewrite Hp2 in Hq2. injection Hq2 as <-. congruence.
  - intros [= <-]. simpl. split_and!; try done.
    + by destruct parts.
    + intros x' y'. split; [done|].
      intros (q1 & q2 & Hq1 & Hq2 & Hx' & Hy').
      rewrite Hp1 in Hq1. injection Hq1 as <-. congruence.
Qed.

Lemma Instruction_init_fields_witness :
  Instruction.__init__ ("C17,3,4,END" +:+ Glyph.newline) = Ok (move_to 3 4)
  ∧ Instruction.typename (move_to 3 4) = "move"%string
  ∧ Instruction.coords (move_to 3 4) = Some (3, 4).
Proof.
  split; [reflexivity|].
  destruct (Instruction_init_fields ("C17,3,4,END" +:+ Glyph.newline)
              (move_to 3 4) eq_refl)
    as (_ & _ & _ & _ & _ & Hmove & _ & Hcoords).
  split.
  - by apply Hmove.
  - apply Hcoords. exists "3"%string, "4"%string. by split_and!.
Defined.

(** X2: the only exception that leaves the parser is [IndexError], and it
    is raised exactly on the lines that, once trailing whitespace is
    removed, have a single field, or have two fields of which the second
    is an integer. *)
Theorem Instruction_init_errors (raw : string) :
  ((∃ i, Instruction.__init__ raw = Ok i)
   ∨ Instruction.__init__ raw = Raise IndexError)
  ∧ (Instruction.__init__ raw = Raise IndexError
     ↔ ∃ p0 rest,
         Py.split "," (Py.rstrip raw) = p0 :: rest
         ∧ (rest = [] ∨ ∃ p1 n, rest = [p1] ∧ Py.int p1 = Ok n)).
Proof.
  split; [apply Instruction_init_outcome|apply Instruction_init_raises_iff].
Qed.

Lemma Instruction_init_reparse (raw : string) (i : Instruction.t) :
  Instruction.__init__ raw = Ok i →
  Instruction.__init__ (Instruction.line i) = Ok i.
Proof.
  intros Hi. rewrite (Instruction_init_line raw i Hi).
  unfold Instruction.__init__ in *. by rewrite rstrip_idempotent.
Qed.

(** X3: parsing the line that an instruction holds gives the same
    instruction again: what the script prints is read back as it was. *)
Theorem Instruction_init_line_again (raw : string) (i : Instruction.t) :
  Instruction.__init__ raw = Ok i →
  Instruction.__init__ (Instruction.line i) = Ok i.
Proof. apply Instruction_init_reparse. Qed.

Lemma Instruction_init_line_again_witness :
  Instruction.__init__ ("C17,3,4,END  " +:+ Glyph.newline) = Ok (move_to 3 4)
  ∧ Instruction.__init__ "C17,3,4,END" = Ok (move_to 3 4).
Proof.
  split; [reflexivity|].
  exact (Instruction_init_line_again ("C17,3,4,END  " +:+ Glyph.newline)
           (move_to 3 4) eq_refl).
Defined.

(** ** Glyph.__init__ *)

(** X4: building a glyph never raises and never writes to the command
    stream.  With fewer than two instructions the glyph has neither start
    nor end; otherwise its start is the coordinates of the first
    instruction and its end those of the last but one.  The diagnostics
    receive the header and one line per instruction exactly when the
    start or the end is absent, and nothing otherwise. *)
Theorem Glyph_init_outcome (chunk : list Instruction.t) (o : output) :
  ∃ g,
    run (Glyph.__init__ chunk) o
    = (Ok g,
       Output (stdout o)
         (stderr o ++
          if decide (Glyph.start g = None ∨ Glyph.end_ g = None)
          then problem_report chunk else []))
    ∧ Glyph.instructions g = chunk
    ∧ ((length chunk < 2)%nat →
       Glyph.start g = None ∧ Glyph.end_ g = None)
    ∧ ((2 ≤ length chunk)%nat →
       Glyph.start g = chunk !! 0%nat ≫= Instruction.coords
       ∧ Glyph.end_ g = chunk !! (length chunk - 2)%nat ≫= Instruction.coords).
Proof.
  exists (glyph_of chunk). split_and!.
  - unfold Glyph.__init__. rewrite run_bind, run_lift, endpoints_glyph_of.
    rewrite run_bind.
    assert (Hg : Glyph.mk (Glyph.start (glyph_of chunk))
                   (Glyph.end_ (glyph_of chunk)) chunk = glyph_of chunk).
    { rewrite <- (glyph_of_instructions chunk) at 3.
      by destruct (glyph_of chunk). }
    destruct (decide (_ ∨ _)) as [Hbad|Hok].
    + assert (bool_decide (Glyph.start (glyph_of chunk) = None)
              || bool_decide (Glyph.end_ (glyph_of chunk) = None) = true)
        as ->.
      { destruct Hbad as [->| ->]; [done|]. apply orb_true_r. }
      rewrite run_bind, run_eprint.
      rewrite (for_eprint (λ i, Instruction.line i +:+ " (" +:+
                                Instruction.typename i +:+ ")")).
      rewrite run_ret, Hg. simpl. unfold problem_report.
      by rewrite <- app_assoc.
    + assert (bool_decide (Glyph.start (glyph_of chunk) = None)
              || bool_decide (Glyph.end_ (glyph_of chunk) = None) = false)
        as ->.
      { apply orb_false_iff. split; apply bool_decide_eq_false; tauto. }
      rewrite run_ret, run_ret, Hg, app_nil_r. by destruct o.
  - apply glyph_of_instructions.
  - intros Hlen. unfold glyph_of.
    destruct (chunk !! 0%nat), (chunk !! (length chunk - 2)%nat); try done.
    destruct (decide (2 ≤ length chunk)%nat); [lia|done].
  - intros Hlen. unfold glyph_of.
    destruct (lookup_lt_is_Some_2 chunk 0) as [a ->]; [lia|].
    destruct (lookup_lt_is_Some_2 chunk (length chunk - 2)) as [b ->]; [lia|].
    by rewrite decide_True.
Qed.

Lemma Glyph_init_outcome_witness :
  ∃ g, (run (Glyph.__init__ [pen_down; move_to 1 2; pen_up]) (Output [] [])).1
       = Ok g
       ∧ Glyph.start g = None ∧ Glyph.end_ g = Some (1, 2).
Proof.
  destruct (Glyph_init_outcome [pen_down; move_to 1 2; pen_up] (Output [] []))
    as (g & Hrun & _ & _ & Hlong).
  exists g. rewrite Hrun. split; [reflexivity|].
  apply Hlong. simpl. lia.
Defined.

(** ** The distance as a metric *)

(** X5: on instructions whose coordinates are present the distance is
    never negative, it is zero exactly between equal coordinates, and it
    obeys the triangle inequality. *)
Theorem distance_metric (a b c : Instruction.t) (p q r : Z * Z) :
  Instruction.coords a = Some p →
  Instruction.coords b = Some q →
  Instruction.coords c = Some r →
  ∃ dab dbc dac,
    Instruction.distance_to a b = Ok dab
    ∧ Instruction.distance_to b c = Ok dbc
    ∧ Instruction.distance_to a c = Ok dac
    ∧ 0 ≤ dab
    ∧ (dab = 0 ↔ p = q)
    ∧ dac ≤ dab + dbc.
Proof.
  destruct p as [px py], q as [qx qy], r as [rx ry]. intros Ha Hb Hc.
  unfold Instruction.distance_to. rewrite Ha, Hb, Hc. simpl.
  eexists _, _, _. split_and!; try reflexivity; [lia| |lia].
  split; [intros Hz; f_equal; lia|intros [= -> ->]; lia].
Qed.

Lemma distance_metric_witness :
  ∃ dab dbc dac,
    Instruction.distance_to (move_to 0 0) (move_to 10 0) = Ok dab
    ∧ Instruction.distance_to (move_to 10 0) (move_to 5 5) = Ok dbc
    ∧ Instruction.distance_to (move_to 0 0) (move_to 5 5) = Ok dac
    ∧ dac ≤ dab + dbc.
Proof.
  destruct (distance_metric (move_to 0 0) (move_to 10 0) (move_to 5 5)
              (0, 0) (10, 0) (5, 5) eq_refl eq_refl eq_refl)
    as (dab & dbc & dac & H1 & H2 & H3 & _ & _ & Htri).
  by exists dab, dbc, dac.
Defined.

(** ** Travel between glyphs *)

Lemma Glyph_distance_to_cases (g h : Glyph.t) :
  (∃ e s, Glyph.end_ g = Some e ∧ Glyph.start h = Some s
          ∧ Glyph.distance_to g h = Ok (chebyshev e s))
  ∨ ((Glyph.end_ g = None ∨ Glyph.start h = None)
     ∧ Glyph.distance_to g h = Raise TypeError).
Proof.
  unfold Glyph.distance_to, chebyshev.
  destruct (Glyph.end_ g) as [[ex ey]|], (Glyph.start h) as [[sx sy]|];
    simpl; eauto 10.
Qed.

Lemma chebyshev_nonneg (p q : Z * Z) : 0 ≤ chebyshev p q.
Proof. unfold chebyshev. lia. Qed.

Lemma sum_nonneg (ds : list Z) : Forall (λ d, 0 ≤ d) ds → 0 ≤ Py.sum ds.
Proof. induction 1; simpl; lia. Qed.

(** The distances of a walk are numbers, or the walk meets a pair of
    neighbours with an absent end or start. *)
Lemma glyph_distances_from (rest : list Glyph.t) :
  ∀ prev,
    (∃ ds, distances_from Glyph.distance_to prev rest = Ok ds
           ∧ Forall (λ d, 0 ≤ d) ds
           ∧ ¬ ∃ i g h, (prev :: rest) !! i = Some g
                        ∧ (prev :: rest) !! S i = Some h
                        ∧ (Glyph.end_ g = None ∨ Glyph.start h = None))
    ∨ (distances_from Glyph.distance_to prev rest = Raise TypeError
       ∧ ∃ i g h, (prev :: rest) !! i = Some g
                  ∧ (prev :: rest) !! S i = Some h
                  ∧ (Glyph.end_ g = None ∨ Glyph.start h = None)).
Proof.
  induction rest as [|x rest IH]; intros prev; simpl.
  - left. exists []. split_and!; [done|done|].
    intros (i & g & h & _ & Hh & _). by destruct i.
  - destruct (Glyph_distance_to_cases prev x)
      as [(e & s & He & Hs & ->)|[Hbad ->]]; simpl.
    + destruct (IH x) as [(ds & -> & Hds & Hnone)|[-> Hsome]]; simpl.
      * left. exists (chebyshev e s :: ds). split_and!; [done| |].
        -- constructor; [apply chebyshev_nonneg|done].
        -- intros (i & g & h & Hg & Hh & Hgh). destruct i as [|i].
           ++ simpl in Hg, Hh. injection Hg as <-. injection Hh as <-.
              destruct Hgh; congruence.
           ++ apply Hnone. by exists i, g, h.
      * right. split; [done|].
        destruct Hsome as (i & g & h & Hg & Hh & Hgh). by exists (S i), g, h.
    + right. split; [done|]. by exists 0%nat, prev, x.
Qed.

(** X6: the travel between glyphs is a number that is not negative,
    unless two neighbours in the ordering are such that the first has no
    end or the second has no start: then, and only then, the outcome is
    [TypeError].  A glyph without start at the head of the ordering, or
    without end at its tail, does no harm. *)
Theorem total_penup_travel_errors (gs : list Glyph.t) :
  ((∃ n, total_penup_travel gs = Ok n ∧ 0 ≤ n)
   ∨ total_penup_travel gs = Raise TypeError)
  ∧ (total_penup_travel gs = Raise TypeError
     ↔ ∃ i g h, gs !! i = Some g ∧ gs !! S i = Some h
                ∧ (Glyph.end_ g = None ∨ Glyph.start h = None)).
Proof.
  unfold total_penup_travel, distance_between_each_pair, distances.
  destruct gs as [|prev rest].
  - simpl. split; [left; by exists 0|].
    split; [done|]. by intros (i & g & h & Hg & _).
  - destruct (glyph_distances_from rest prev)
      as [(ds & -> & Hds & Hnone)|[-> Hsome]]; simpl.
    + split; [left; exists (Py.sum ds); split; [done|by apply sum_nonneg]|].
      split; [done|]. intros Hbad. by destruct Hnone.
    + split; [by right|]. done.
Qed.

Lemma distances_from_app {A} (distance_to : A → A → result Z)
    (l1 : list A) :
  ∀ (prev g h : A) (l2 : list A) (ds1 ds2 : list Z) (d : Z),
    distances_from distance_to prev (l1 ++ [g]) = Ok ds1 →
    distance_to g h = Ok d →
    distances_from distance_to h l2 = Ok ds2 →
    distances_from distance_to prev (l1 ++ g :: h :: l2)
    = Ok (ds1 ++ d :: ds2).
Proof.
  induction l1 as [|x l1 IH]; intros prev g h l2 ds1 ds2 d; simpl.
  - destruct (distance_to prev g) as [d0|]; simpl; [|done].
    intros [= <-] -> ->. done.
  - destruct (distance_to prev x) as [d0|]; simpl; [|done].
    destruct (distances_from distance_to x (l1 ++ [g])) as [ds|] eqn:Hds;
      simpl; [|done].
    intros [= <-] Hd Hds2. by rewrite (IH x g h l2 ds ds2 d Hds Hd Hds2).
Qed.

Lemma sum_app (l1 l2 : list Z) : Py.sum (l1 ++ l2) = Py.sum l1 + Py.sum l2.
Proof. induction l1 as [|x l1 IH]; simpl; lia. Qed.

(** X7: the travel of an empty ordering and of a single glyph is zero,
    whatever the glyph is; and the travel of two orderings put one after
    the other is the sum of their travels and of the distance from the
    last glyph of the first to the first glyph of the second. *)
Theorem total_penup_travel_concat :
  total_penup_travel [] = Ok 0
  ∧ (∀ g, total_penup_travel [g] = Ok 0)
  ∧ (∀ l1 g h l2 a d b,
       total_penup_travel (l1 ++ [g]) = Ok a →
       Glyph.distance_to g h = Ok d →
       total_penup_travel (h :: l2) = Ok b →
       total_penup_travel (l1 ++ g :: h :: l2) = Ok (a + d + b)).
Proof.
  split_and!; [done|done|].
  intros l1 g h l2 a d b.
  unfold total_penup_travel, distance_between_each_pair, distances.
  destruct l1 as [|x l1]; simpl.
  - intros [= <-] -> Hb.
    destruct (distances_from Glyph.distance_to h l2) as [ds|]; simpl in *;
      [|done].
    injection Hb as <-. f_equal; lia.
  - destruct (distances_from Glyph.distance_to x (l1 ++ [g])) as [ds1|] eqn:H1;
      simpl; [|done].
    intros [= <-] Hd.
    destruct (distances_from Glyph.distance_to h l2) as [ds2|] eqn:H2;
      simpl; [|done].
    intros [= <-].
    rewrite (distances_from_app _ l1 x g h l2 ds1 ds2 d H1 Hd H2). simpl.
    rewrite sum_app. simpl. f_equal; lia.
Qed.

Lemma total_penup_travel_concat_witness :
  total_penup_travel ([dot 0 0] ++ [dot 10 0]) = Ok 10
  ∧ total_penup_travel (dot 5 5 :: [dot 0 0]) = Ok 5
  ∧ total_penup_travel ([dot 0 0] ++ dot 10 0 :: dot 5 5 :: [dot 0 0])
    = Ok (10 + 5 + 5).
Proof.
  split; [reflexivity|]. split; [reflexivity|].
  exact (proj2 (proj2 total_penup_travel_concat)
           [dot 0 0] (dot 10 0) (dot 5 5) [dot 0 0] 10 5 5
           eq_refl eq_refl eq_refl).
Defined.

(** ** Total travel *)

Lemma Instruction_distance_to_cases (a b : Instruction.t) :
  (∃ p q, Instruction.coords a = Some p ∧ Instruction.coords b = Some q
          ∧ Instruction.distance_to a b = Ok (chebyshev p q))
  ∨ ((Instruction.coords a = None ∨ Instruction.coords b = None)
     ∧ Instruction.distance_to a b = Raise TypeError).
Proof.
  unfold Instruction.distance_to, chebyshev.
  destruct (Instruction.coords a) as [[ax ay]|],
           (Instruction.coords b) as [[bx b_y]|]; simpl; eauto 10.
Qed.

Lemma chebyshev_triangle (p q r : Z * Z) :
  chebyshev p r ≤ chebyshev p q + chebyshev q r.
Proof. unfold chebyshev. lia. Qed.

Lemma chebyshev_refl (p : Z * Z) : chebyshev p p = 0.
Proof. unfold chebyshev. lia. Qed.

(** A path is at least as long as the distance between its ends. *)
Lemma move_distances_from (rest : list Instruction.t) :
  ∀ prev p z q,
    Forall (λ m, is_Some (Instruction.coords m)) (prev :: rest) →
    Instruction.coords prev = Some p →
    last (prev :: rest) = Some z →
    Instruction.coords z = Some q →
    ∃ ds, distances_from Instruction.distance_to prev rest = Ok ds
          ∧ chebyshev p q ≤ Py.sum ds.
Proof.
  induction rest as [|x rest IH]; intros prev p z q Hall Hp Hz Hq.
  - simpl in *. injection Hz as <-. exists []. split; [done|].
    rewrite Hp in Hq. injection Hq as <-. rewrite chebyshev_refl. simpl. lia.
  - apply Forall_cons in Hall as [_ Hall].
    pose proof Hall as Hall'. apply Forall_cons in Hall' as [[px Hx] _].
    destruct (IH x px z q Hall Hx) as (ds & Hds & Hle); [by destruct rest|done|].
    simpl. destruct (Instruction_distance_to_cases prev x)
      as [(p' & q' & Hp' & Hq' & ->)|[[?|?] _]]; [|congruence..].
    rewrite Hds. simpl. exists (chebyshev p' q' :: ds). split; [done|].
    simpl. rewrite Hp in Hp'. rewrite Hx in Hq'.
    injection Hp' as <-. injection Hq' as <-.
    pose proof (chebyshev_triangle p px q). lia.
Qed.

Lemma move_distances_from_raise (rest : list Instruction.t) :
  ∀ prev m,
    rest ≠ [] → m ∈ prev :: rest → Instruction.coords m = None →
    distances_from Instruction.distance_to prev rest = Raise TypeError.
Proof.
  induction rest as [|x rest IH]; intros prev m Hne Hm Hnone; [done|].
  simpl. destruct (Instruction_distance_to_cases prev x)
    as [(p & q & Hp & Hq & ->)|[_ ->]]; [|done].
  simpl. rewrite (IH x m); [done| |  |done].
  - intros ->. apply elem_of_cons in Hm as [->|Hm]; [congruence|].
    apply list_elem_of_singleton in Hm as ->. congruence.
  - apply elem_of_cons in Hm as [->|Hm]; [congruence|done].
Qed.

Lemma move_distances_from_outcome (rest : list Instruction.t) (prev : Instruction.t) :
  (∃ ds, distances_from Instruction.distance_to prev rest = Ok ds
         ∧ (rest ≠ [] →
            Forall (λ m, is_Some (Instruction.coords m)) (prev :: rest)))
  ∨ distances_from Instruction.distance_to prev rest = Raise TypeError.
Proof.
  revert prev. induction rest as [|x rest IH]; intros prev; simpl.
  - left. by exists [].
  - destruct (Instruction_distance_to_cases prev x)
      as [(p & q & Hp & Hq & ->)|[_ ->]]; [|by right]. simpl.
    destruct (IH x) as [(ds & -> & Hall)| ->]; [|by right]. simpl.
    left. eexists. split; [done|]. intros _.
    constructor; [by rewrite Hp|].
    destruct rest as [|y rest]; [|by apply Hall].
    constructor; [by rewrite Hq|done].
Qed.

(** Either every move has coordinates, or one has none. *)
Lemma classic_moves (a : Instruction.t) (ms : list Instruction.t) :
  Forall (λ m, is_Some (Instruction.coords m)) (a :: ms)
  ∨ ∃ m, m ∈ a :: ms ∧ Instruction.coords m = None.
Proof.
  destruct (decide (Forall (λ m, is_Some (Instruction.coords m)) (a :: ms)))
    as [Hall|Hnot]; [by left|right].
  apply not_Forall_Exists in Hnot; [|apply _].
  apply Exists_exists in Hnot as (m & Hm & Hnone).
  exists m. split; [done|]. simpl in Hnone.
  destruct (Instruction.coords m); [|done]. destruct Hnone. by eexists.
Qed.

Lemma iter_moves_flat (gs : list Glyph.t) :
  iter_moves gs
  = filter (λ i, Instruction.typename i = "move"%string)
      (gs ≫= Glyph.instructions).
Proof.
  unfold iter_moves. induction gs as [|g gs IH]; [done|].
  by rewrite !bind_cons, filter_app, IH.
Qed.

(** X8: the total travel reads the move instructions only, in the order
    the ordering gives them, so that glyph boundaries do not matter.
    With fewer than two moves it is zero.  It raises, and then
    [TypeError], exactly when there are two moves or more and one of them
    has no coordinates.  When it is a number, it is at least the distance
    between the first move and the last one. *)
Theorem total_travel_outcomes (gs : list Glyph.t) :
  (∀ gs', gs ≫= Glyph.instructions = gs' ≫= Glyph.instructions →
          total_travel gs = total_travel gs')
  ∧ ((length (iter_moves gs) < 2)%nat → total_travel gs = Ok 0)
  ∧ ((∃ n, total_travel gs = Ok n) ∨ total_travel gs = Raise TypeError)
  ∧ (total_travel gs = Raise TypeError
     ↔ (2 ≤ length (iter_moves gs))%nat
       ∧ ∃ m, m ∈ iter_moves gs ∧ Instruction.coords m = None)
  ∧ (∀ n a z p q,
       total_travel gs = Ok n →
       head (iter_moves gs) = Some a → last (iter_moves gs) = Some z →
       Instruction.coords a = Some p → Instruction.coords z = Some q →
       chebyshev p q ≤ n).
Proof.
  split.
  { intros gs' Hflat. unfold total_travel. by rewrite !iter_moves_flat, Hflat. }
  unfold total_travel, distance_between_moves, distances.
  destruct (iter_moves gs) as [|a [|b ms]] eqn:Hms.
  - split_and!; [done|left; by exists 0| |].
    + split; [done|]. simpl. lia.
    + by intros n a z p q _ [=].
  - simpl. split_and!; [done|left; by exists 0| |].
    + split; [done|]. simpl. lia.
    + intros n a' z p q [= <-] [= <-] [= <-] Hp Hq.
      rewrite Hp in Hq. injection Hq as <-. by rewrite chebyshev_refl.
  - split; [simpl; lia|].
    destruct (move_distances_from_outcome (b :: ms) a)
      as [(ds & Hds & Hall)|Hraise].
    + specialize (Hall ltac:(done)). rewrite Hds. simpl.
      split_and!; [left; by eexists| |].
      * split; [done|]. intros (_ & m & Hm & Hnone).
        rewrite Forall_forall in Hall. destruct (Hall m Hm). congruence.
      * intros n a' z p q [= <-] [= <-] Hz Hp Hq.
        destruct (move_distances_from (b :: ms) a p z q Hall Hp Hz Hq)
          as (ds' & Hds' & Hle).
        rewrite Hds in Hds'. by injection Hds' as <-.
    + rewrite Hraise. simpl. split_and!; [by right| |done].
      split; [|done]. intros _. split; [simpl; lia|].
      destruct (classic_moves a (b :: ms)) as [Hall|Hsome]; [|done].
      destruct (Forall_cons_1 _ _ _ Hall) as [[p Hp] _].
      destruct (lookup_lt_is_Some_2 (a :: b :: ms) (length (b :: ms)))
        as [z Hz]; [simpl; lia|].
      assert (Hlast : last (a :: b :: ms) = Some z).
      { by rewrite last_lookup. }
      assert (Hzin : z ∈ a :: b :: ms) by by eapply list_elem_of_lookup_2.
      rewrite Forall_forall in Hall. destruct (Hall z Hzin) as [q Hq].
      destruct (move_distances_from (b :: ms) a p z q) as (ds & Hds & _);
        [by apply Forall_forall|done..|congruence].
Qed.

Lemma total_travel_outcomes_witness :
  total_travel [dot 0 0; dot 10 0] = Ok 10
  ∧ chebyshev (0, 0) (10, 0) ≤ 10.
Proof.
  split; [reflexivity|].
  exact (proj2 (proj2 (proj2 (proj2 (total_travel_outcomes [dot 0 0; dot 10 0]))))
           10 (move_to 0 0) (move_to 10 0) (0, 0) (10, 0)
           eq_refl eq_refl eq_refl eq_refl eq_refl).
Defined.

(** ** What dedupe keeps *)

Lemma filter_all_elem {A} (P : A → Prop) `{∀ x, Decision (P x)} (l : list A) :
  (∀ x, x ∈ l → P x) → filter P l = l.
Proof.
  induction l as [|x l IH]; intros HP; [done|].
  rewrite filter_cons_True by (apply HP; by left).
  f_equal. apply IH. intros y Hy. apply HP. by right.
Qed.

Section first_occurrences.
Context {A K : Type} `{EqDecision K} (key : A → K).

Lemma first_occurrences_sublist (l : list A) :
  first_occurrences key l `sublist_of` l.
Proof.
  induction l as [|x l IH]; simpl; [done|].
  constructor. etrans; [apply sublist_filter|done].
Qed.

Lemma first_occurrences_NoDup (l : list A) :
  NoDup (key <$> first_occurrences key l).
Proof.
  induction l as [|x l IH]; simpl; [constructor|].
  apply NoDup_cons. split.
  - intros (y & Hy & Hin)%list_elem_of_fmap.
    apply list_elem_of_filter in Hin as [Hne _]. congruence.
  - eapply sublist_NoDup; [exact IH|apply fmap_sublist, sublist_filter].
Qed.

Lemma first_occurrences_cover (l : list A) (x : A) :
  x ∈ l → ∃ y, y ∈ first_occurrences key l ∧ key y = key x.
Proof.
  induction l as [|z l IH]; simpl; [by intros ?%elem_of_nil|].
  intros [->|Hx]%elem_of_cons.
  - exists z. split; [by left|done].
  - destruct (IH Hx) as (y & Hy & Hkey).
    destruct (decide (key y = key z)) as [Heq|Hne].
    + exists z. split; [by left|congruence].
    + exists y. split; [|done]. right. by apply list_elem_of_filter.
Qed.

Lemma first_occurrences_id (l : list A) :
  NoDup (key <$> l) → first_occurrences key l = l.
Proof.
  induction l as [|x l IH]; simpl; [done|].
  intros [Hx Hl]%NoDup_cons. rewrite IH by done. f_equal.
  apply filter_all_elem. intros y Hy Heq. apply Hx.
  rewrite <- Heq. by apply list_elem_of_fmap_2.
Qed.

End first_occurrences.

(** X9: what [dedupe] returns is a sublist of its input that starts with
    the same glyph, its hash codes are pairwise different, and every glyph
    of the input has its hash code in it; so no more than one glyph per
    hash code is kept, and none is lost. *)
Theorem dedupe_shape (gs : list Glyph.t) :
  dedupe gs `sublist_of` gs
  ∧ head (dedupe gs) = head gs
  ∧ NoDup (Glyph.__hash__ <$> dedupe gs)
  ∧ (∀ g, g ∈ gs →
          ∃ g', g' ∈ dedupe gs ∧ Glyph.__hash__ g' = Glyph.__hash__ g).
Proof.
  rewrite dedupe_by_hash. split_and!.
  - apply first_occurrences_sublist.
  - by destruct gs.
  - apply first_occurrences_NoDup.
  - apply first_occurrences_cover.
Qed.

(** X10: a list of glyphs with pairwise different hash codes is left as
    it is, and deduplicating twice is the same as deduplicating once. *)
Theorem dedupe_idempotent (gs : list Glyph.t) :
  (NoDup (Glyph.__hash__ <$> gs) → dedupe gs = gs)
  ∧ dedupe (dedupe gs) = dedupe gs.
Proof.
  assert (Hid : ∀ l, NoDup (Glyph.__hash__ <$> l) → dedupe l = l).
  { intros l Hl. rewrite dedupe_by_hash. by apply first_occurrences_id. }
  split; [apply Hid|]. apply Hid.
  rewrite dedupe_by_hash. apply first_occurrences_NoDup.
Qed.

Lemma dedupe_idempotent_witness :
  NoDup (Glyph.__hash__ <$> [dot 0 0; dot 10 0])
  ∧ dedupe [dot 0 0; dot 10 0] = [dot 0 0; dot 10 0].
Proof.
  assert (H : NoDup (Glyph.__hash__ <$> [dot 0 0; dot 10 0])).
  { apply (bool_decide_unpack _). by vm_compute. }
  split; [exact H|].
  exact (proj1 (dedupe_idempotent [dot 0 0; dot 10 0]) H).
Defined.

Lemma dedupe_shape_witness :
  dot 0 0 ∈ [dot 0 0; dot 10 0; dot 0 0]
  ∧ ∃ g', g' ∈ dedupe [dot 0 0; dot 10 0; dot 0 0]
          ∧ Glyph.__hash__ g' = Glyph.__hash__ (dot 0 0).
Proof.
  assert (H : dot 0 0 ∈ [dot 0 0; dot 10 0; dot 0 0]) by by left.
  split; [exact H|].
  exact (proj2 (proj2 (proj2 (dedupe_shape [dot 0 0; dot 10 0; dot 0 0])))
           (dot 0 0) H).
Defined.

(** ** The baseline ordering *)

Section sorted.
Context {A K : Type} (leb : K → K → bool) (key : A → K).
Hypothesis leb_refl : ∀ a, leb a a = true.
Hypothesis leb_total : ∀ a b, leb a b = true ∨ leb b a = true.
Hypothesis leb_trans : ∀ a b c, leb a b = true → leb b c = true → leb a c = true.

Lemma insert_by_perm (x : A) (l : list A) : Py.insert_by leb key x l ≡ₚ x :: l.
Proof.
  induction l as [|y l IH]; simpl; [done|].
  destruct (leb (key x) (key y)); [done|].
  rewrite IH. apply Permutation_swap.
Qed.

Lemma sorted_perm (l : list A) : Py.sorted leb key l ≡ₚ l.
Proof.
  unfold Py.sorted. induction l as [|x l IH]; simpl; [done|].
  by rewrite insert_by_perm, IH.
Qed.

Lemma insert_by_sorted (x : A) (l : list A) :
  StronglySorted (λ a b, leb (key a) (key b) = true) l →
  StronglySorted (λ a b, leb (key a) (key b) = true) (Py.insert_by leb key x l).
Proof.
  induction 1 as [|y l Hl IH Hy]; simpl.
  - repeat constructor.
  - destruct (leb (key x) (key y)) eqn:Hxy.
    + constructor; [by constructor|].
      constructor; [done|].
      eapply Forall_impl; [exact Hy|]. intros z Hz. simpl in Hz. eauto.
    + constructor; [done|].
      rewrite (insert_by_perm x l). constructor; [|done].
      destruct (leb_total (key x) (key y)); congruence.
Qed.

Lemma sorted_sorted (l : list A) :
  StronglySorted (λ a b, leb (key a) (key b) = true) (Py.sorted leb key l).
Proof.
  unfold Py.sorted. induction l as [|x l IH]; simpl; [constructor|].
  by apply insert_by_sorted.
Qed.

Lemma insert_by_stable (P : A → Prop) `{∀ a, Decision (P a)} (x : A)
    (l : list A) :
  (∀ a b, P a → P b → key a = key b) →
  filter P (Py.insert_by leb key x l) = filter P (x :: l).
Proof.
  intros Hkey. induction l as [|y l IH]; simpl; [done|].
  destruct (leb (key x) (key y)) eqn:Hxy; [done|].
  rewrite filter_cons, IH, !filter_cons.
  destruct (decide (P x)) as [Hx|Hx], (decide (P y)) as [Hy|Hy]; try done.
  rewrite (Hkey x y Hx Hy), leb_refl in Hxy. done.
Qed.

Lemma sorted_stable (P : A → Prop) `{∀ a, Decision (P a)} (l : list A) :
  (∀ a b, P a → P b → key a = key b) →
  filter P (Py.sorted leb key l) = filter P l.
Proof.
  intros Hkey. unfold Py.sorted.
  induction l as [|x l IH]; simpl; [done|].
  rewrite insert_by_stable by done. by rewrite !filter_cons, IH.
Qed.

End sorted.

Lemma coords_le_spec (a b : option (Z * Z)) :
  Py.coords_le a b = true
  ↔ match a, b with
    | None, _ => True
    | Some _, None => False
    | Some (x1, y1), Some (x2, y2) => x1 < x2 ∨ (x1 = x2 ∧ y1 ≤ y2)
    end.
Proof.
  destruct a as [[x1 y1]|], b as [[x2 y2]|]; simpl; try done.
  rewrite orb_true_iff, andb_true_iff, Z.ltb_lt, Z.eqb_eq, Z.leb_le. done.
Qed.

(** X11: the ordering sorted by start that the script measures as a
    baseline is a permutation of the glyphs, it is in order (a glyph
    without start first, then by [x], then by [y]), and glyphs with the
    same start keep the order they had. *)
Theorem sorted_by_start_baseline (gs : list Glyph.t) :
  Py.sorted Py.coords_le Glyph.start gs ≡ₚ gs
  ∧ StronglySorted start_le (Py.sorted Py.coords_le Glyph.start gs)
  ∧ (∀ s, filter (λ g, Glyph.start g = s)
            (Py.sorted Py.coords_le Glyph.start gs)
          = filter (λ g, Glyph.start g = s) gs).
Proof.
  assert (Hrefl : ∀ a, Py.coords_le a a = true).
  { intros a. apply coords_le_spec. destruct a as [[x y]|]; [lia|done]. }
  assert (Htotal : ∀ a b, Py.coords_le a b = true ∨ Py.coords_le b a = true).
  { intros a b. rewrite !coords_le_spec.
    destruct a as [[x1 y1]|], b as [[x2 y2]|]; try tauto. lia. }
  assert (Htrans : ∀ a b c, Py.coords_le a b = true → Py.coords_le b c = true →
                            Py.coords_le a c = true).
  { intros a b c. rewrite !coords_le_spec.
    destruct a as [[x1 y1]|], b as [[x2 y2]|], c as [[x3 y3]|];
      try tauto. lia. }
  split_and!.
  - apply sorted_perm.
  - by apply sorted_sorted.
  - intros s. apply sorted_stable; [done|]. congruence.
Qed.

(** ** reorder_greedy at its edges *)



(** X13: on a list of one element [reorder_greedy] returns a new list
    with that element, for the indices [0] and [-1], without computing a
    distance: the element need not have a start or an end. *)
Theorem reorder_greedy_singleton (σ : store) (gs x : loc) (index : Z) :
  σ !! gs = Some (OList [x]) →
  index = 0 ∨ index = -1 →
  ∃ r σ', run (reorder_greedy gs index) σ = (Ok r, σ')
          ∧ σ !! r = None
          ∧ σ' !! r = Some (OList [x]).
Proof.
  intros Hgs Hindex. unfold reorder_greedy, list_.
  rewrite run_bind, run_bind, (run_read_list _ _ _ Hgs), run_alloc.
  set (gs' := fresh (dom σ)). set (σ1 := <[gs' := OList [x]]> σ).
  assert (Hgs' : σ !! gs' = None) by apply fresh_lookup.
  assert (Hσ1 : σ1 !! gs' = Some (OList [x])) by apply lookup_insert_eq.
  rewrite run_bind, (run_len _ _ _ Hσ1), run_bind.
  destruct (run_pop σ1 gs' [x] index Hσ1) as (first & _ & Hfirst & ->).
  { simpl. lia. }
  assert (Hpos : position (length [x]) index = 0%nat).
  { unfold position. destruct Hindex as [-> | ->]; reflexivity. }
  rewrite Hpos in *. injection Hfirst as <-. simpl delete.
  set (σ2 := <[gs' := OList []]> σ1).
  rewrite run_bind, run_alloc.
  set (ordered := fresh (dom σ2)).
  set (σ3 := <[ordered := OList [x]]> σ2).
  assert (Hσ2 : σ2 !! ordered = None) by apply fresh_lookup.
  assert (Hne : gs' ≠ ordered).
  { intros Heq. rewrite <- Heq in Hσ2. unfold σ2 in Hσ2.
    by rewrite lookup_insert_eq in Hσ2. }
  assert (Hord : σ !! ordered = None).
  { unfold σ2, σ1 in Hσ2. by rewrite !lookup_insert_ne in Hσ2. }
  rewrite run_bind, run_bind, (run_read_list σ3 ordered [x])
    by apply lookup_insert_eq.
  rewrite run_lift. cbn [Py.getitem]. simpl.
  rewrite run_bind.
  assert (Hσ3 : σ3 !! gs' = Some (OList [])).
  { unfold σ3. rewrite lookup_insert_ne by done. apply lookup_insert_eq. }
  change (Pos.to_nat 1) with 1%nat. cbn [reorder_loop].
  rewrite run_bind, (run_len _ _ _ Hσ3). simpl.
  exists ordered, σ3. split_and!; [done|done|apply lookup_insert_eq].
Qed.

Lemma reorder_greedy_singleton_witness :
  lone_no_start !! 2%positive = Some (OList [1%positive])
  ∧ ∃ r σ',
      run (reorder_greedy 2%positive (-1)) lone_no_start = (Ok r, σ')
      ∧ σ' !! r = Some (OList [1%positive]).
Proof.
  assert (H : lone_no_start !! 2%positive = Some (OList [1%positive]))
    by reflexivity.
  split; [exact H|].
  destruct (reorder_greedy_singleton lone_no_start 2%positive 1%positive (-1)
              H (or_intror eq_refl))
    as (r & σ' & Hrun & _ & Hr).
  by exists r, σ'.
Defined.







(** ** The glyphs of segmentation *)

Lemma concat_filter_sublist {A} (P : list A → Prop) `{∀ c, Decision (P c)}
    (cs : list (list A)) :
  concat (filter P cs) `sublist_of` concat cs.
Proof.
  induction cs as [|c cs IH]; [done|].
  rewrite filter_cons. destruct (decide (P c)); simpl.
  - by apply sublist_app.
  - by apply sublist_inserts_l.
Qed.

Lemma bind_glyph_of (cs : list (list Instruction.t)) :
  (glyph_of <$> cs) ≫= Glyph.instructions = concat cs.
Proof.
  induction cs as [|c cs IH]; [done|].
  rewrite fmap_cons, bind_cons, IH, glyph_of_instructions. done.
Qed.

(** The glyph of a chunk that holds something before its pen-up. *)
Lemma glyph_of_closed (body : list Instruction.t) (u first final : Instruction.t) :
  head body = Some first → last body = Some final →
  glyph_of (body ++ [u])
  = Glyph.mk (Instruction.coords first) (Instruction.coords final)
      (body ++ [u]).
Proof.
  intros Hfirst Hfinal. unfold glyph_of.
  assert (Hlen : (1 ≤ length body)%nat) by (destruct body; [done|simpl; lia]).
  rewrite length_app. simpl.
  rewrite lookup_app_l by lia. rewrite <- head_lookup, Hfirst.
  replace (length body + 1 - 2)%nat with (pred (length body)) by lia.
  rewrite lookup_app_l by lia. rewrite <- last_lookup, Hfinal.
  by rewrite decide_True by lia.
Qed.

(** X15: segmentation never raises and never writes to the command
    stream.  Every glyph it returns holds a run of instructions without
    pen-up, which is not empty, followed by one pen-up; it starts at the
    coordinates of the first instruction of the run and ends at those of
    the last one, the instruction before the pen-up.  The instructions of
    the glyphs, one glyph after the other, are a sublist of the input:
    nothing is invented and the order is kept. *)
Theorem segment_glyph_shape (insts : list Instruction.t) (o : output) :
  ∃ gs o',
    run (segment insts) o = (Ok gs, o')
    ∧ stdout o' = stdout o
    ∧ Forall (λ g, ∃ body u first final,
                Glyph.instructions g = body ++ [u]
                ∧ is_penup u
                ∧ Forall (λ i, ¬ is_penup i) body
                ∧ head body = Some first
                ∧ last body = Some final
                ∧ Glyph.start g = Instruction.coords first
                ∧ Glyph.end_ g = Instruction.coords final) gs
    ∧ gs ≫= Glyph.instructions `sublist_of` insts.
Proof.
  destruct (segment_loop insts [] [] o) as (o' & Hrun & Hout); [done|].
  simpl in Hrun.
  destruct (chunks_decompose insts) as (Hcat & Hcs & _).
  eexists _, o'. split_and!.
  - unfold segment. rewrite run_bind, Hrun. by rewrite run_ret.
  - done.
  - simpl. apply Forall_fmap, Forall_forall.
    intros c [Hlen Hc]%list_elem_of_filter.
    rewrite Forall_forall in Hcs.
    destruct (Hcs c Hc) as (body & u & -> & Hu & Hbody).
    rewrite length_app in Hlen. simpl in Hlen.
    destruct body as [|first body]; [simpl in Hlen; lia|].
    destruct (lookup_lt_is_Some_2 (first :: body) (pred (length (first :: body))))
      as [final Hfinal]; [simpl; lia|].
    rewrite <- last_lookup in Hfinal.
    unfold compose.
    rewrite (glyph_of_closed (first :: body) u first final) by done.
    by exists (first :: body), u, first, final.
  - simpl. rewrite bind_glyph_of. rewrite <- Hcat at 2.
    apply sublist_inserts_r, concat_filter_sublist.
Qed.

(** ** Reading back what was printed *)

Lemma read_instructions_from (input : list string) :
  ∀ (acc : list Instruction.t) (o : output),
    (∃ insts,
       run (for_acc input
              (λ instructions line,
                 i ← lift (Instruction.__init__ line);
                 mret (instructions ++ [i])) acc) o
       = (Ok (acc ++ insts), o)
       ∧ Forall2 (λ raw i, Instruction.__init__ raw = Ok i) input insts)
    ∨ (run (for_acc input
              (λ instructions line,
                 i ← lift (Instruction.__init__ line);
                 mret (instructions ++ [i])) acc) o
       = (Raise IndexError, o)
       ∧ ∃ line, line ∈ input ∧ Instruction.__init__ line = Raise IndexError).
Proof.
  induction input as [|raw input IH]; intros acc o; simpl.
  - left. exists []. rewrite run_ret, app_nil_r. by split.
  - rewrite run_bind, run_bind, run_lift.
    destruct (Instruction_init_outcome raw) as [[i Hi]|Hi]; rewrite Hi.
    + rewrite run_ret.
      destruct (IH (acc ++ [i]) o) as [(insts & -> & Hall)|[-> Hbad]].
      * left. exists (i :: insts). rewrite <- app_assoc. split; [done|].
        by constructor.
      * right. split; [done|]. destruct Hbad as (line & Hin & Hline).
        exists line. split; [by right|done].
    + right. split; [done|]. exists raw. split; [by left|done].
Qed.

Lemma read_instructions_run (input : list string) (o : output) :
  (∃ insts, run (read_instructions input) o = (Ok insts, o)
            ∧ Forall2 (λ raw i, Instruction.__init__ raw = Ok i) input insts)
  ∨ (run (read_instructions input) o = (Raise IndexError, o)
     ∧ ∃ line, line ∈ input ∧ Instruction.__init__ line = Raise IndexError).
Proof. apply (read_instructions_from input []). Qed.

Lemma read_instructions_ok (input : list string) (insts : list Instruction.t)
    (o : output) :
  Forall2 (λ raw i, Instruction.__init__ raw = Ok i) input insts →
  run (read_instructions input) o = (Ok insts, o).
Proof.
  intros Hall.
  destruct (read_instructions_run input o)
    as [(insts' & -> & Hall')|[_ (line & Hin & Hline)]].
  - do 2 f_equal. revert insts' Hall'.
    induction Hall as [|raw i input insts Hi _ IH]; intros insts' Hall'.
    + by inversion Hall'.
    + inversion Hall' as [|? i' ? insts'' Hi' Hrest]; subst.
      rewrite Hi in Hi'. injection Hi' as <-. f_equal. by apply IH.
  - apply list_elem_of_lookup in Hin as [k Hk].
    destruct (Forall2_lookup_l _ _ _ _ _ Hall Hk) as (i & _ & Hi). congruence.
Qed.

Lemma print_glyphs_run (gs : list Glyph.t) (o : output) :
  run (print_glyphs gs) o
  = (Ok tt, Output (stdout o ++ "C14,END" :: (g ← gs; Glyph.lines g))
                   (stderr o)).
Proof.
  unfold print_glyphs. rewrite run_bind, run_print.
  rewrite for_print_glyphs; simpl. by rewrite <- app_assoc.
Qed.

Lemma bind_lines (gs : list Glyph.t) :
  gs ≫= Glyph.lines = Instruction.line <$> (gs ≫= Glyph.instructions).
Proof.
  induction gs as [|g gs IH]; [done|].
  by rewrite !bind_cons, fmap_app, IH.
Qed.

Lemma chunks_concat (cs : list (list Instruction.t)) :
  Forall (λ c, ∃ body u, c = body ++ [u] ∧ is_penup u
                         ∧ Forall (λ i, ¬ is_penup i) body) cs →
  chunks (concat cs) = (cs, []).
Proof.
  induction 1 as [|c cs (body & u & -> & Hu & Hbody) _ IH]; [done|].
  simpl. rewrite <- app_assoc. simpl.
  by rewrite chunks_app_penup, IH.
Qed.

(** X16: the command stream that [print_glyphs] writes for the glyphs of
    an input is read back, by parsing and segmentation, as the same
    glyphs: the pen-up that opens the stream is dropped as a lone
    pen-up, every line is parsed to the instruction it came from, and
    the glyph boundaries are found again. *)
Theorem print_then_read (input : list string) (gs : list Glyph.t)
    (o o1 o2 : output) :
  run (read_glyphs input) o = (Ok gs, o1) →
  (run (read_glyphs (stdout (run (print_glyphs gs) (Output [] [])).2)) o2).1
  = Ok gs.
Proof.
  unfold read_glyphs at 1. rewrite run_bind.
  destruct (read_instructions_run input o)
    as [(insts & -> & Hparsed)|[-> _]]; [|done].
  unfold segment. rewrite run_bind.
  destruct (segment_loop insts [] [] o) as (o' & -> & _); [done|].
  rewrite run_ret. simpl. intros [= <- <-].
  set (cs := filter (λ c, (1 < length c)%nat) (chunks insts).1).
  destruct (chunks_decompose insts) as (Hcat & Hcs & _).
  assert (Hclosed : Forall (λ c, ∃ body u, c = body ++ [u] ∧ is_penup u
                             ∧ Forall (λ i, ¬ is_penup i) body) cs).
  { apply Forall_forall. intros c [_ Hc]%list_elem_of_filter.
    rewrite Forall_forall in Hcs. by apply Hcs. }
  rewrite print_glyphs_run. simpl. rewrite bind_lines, bind_glyph_of.
  unfold read_glyphs. rewrite run_bind.
  rewrite (read_instructions_ok _ (pen_up :: concat cs)).
  - unfold segment. rewrite run_bind.
    destruct (segment_loop (pen_up :: concat cs) [] [] o2) as (o3 & -> & _);
      [done|].
    rewrite run_ret. simpl. rewrite chunks_concat by done.
    cbn [fst]. rewrite filter_cons_False by (simpl; lia).
    do 2 f_equal. apply filter_all_elem.
    intros c Hc. by apply list_elem_of_filter in Hc as [Hlen _].
  - constructor; [reflexivity|].
    apply Forall2_fmap_l, Forall_Forall2_diag, Forall_forall.
    intros i Hi.
    assert (Hin : i ∈ insts).
    { rewrite <- Hcat. apply elem_of_app. left.
      eapply elem_of_sublist; [exact Hi|]. apply concat_filter_sublist. }
    apply list_elem_of_lookup in Hin as [k Hk].
    destruct (Forall2_lookup_r _ _ _ _ _ Hparsed Hk) as (raw & _ & Hraw).
    by apply (Instruction_init_reparse raw).
Qed.

Lemma print_then_read_witness :
  (run (read_glyphs (dot_text 0 0 ++ no_start_text)) (Output [] [])).1
  = Ok [dot 0 0; no_start]
  ∧ (run (read_glyphs
            (stdout (run (print_glyphs [dot 0 0; no_start]) (Output [] [])).2))
       (Output [] [])).1
    = Ok [dot 0 0; no_start].
Proof.
  split; [by vm_compute|].
  apply (print_then_read (dot_text 0 0 ++ no_start_text) [dot 0 0; no_start]
           (Output [] [])
           (run (read_glyphs (dot_text 0 0 ++ no_start_text)) (Output [] [])).2).
  by vm_compute.
Defined.

(** ** The script as a whole *)

(** X17: whatever the input is, when fewer than fifteen glyphs are left
    after deduplication the script ends with an exception that is not the
    exit of [sys.exit], and it has written nothing to the command
    stream. *)
Theorem main_fewer_than_fifteen (input : list string) (o : output) :
  (∀ gs o', run (read_glyphs input) o = (Ok gs, o') →
            (length (dedupe gs) < 15)%nat) →
  stdout (run (main input) o).2 = stdout o
  ∧ ∃ e, (run (main input) o).1 = Raise e ∧ e ≠ SystemExit.
Proof. apply main_few_glyphs. Qed.

Lemma main_fewer_than_fifteen_witness :
  stdout (run (main (dot_text 0 0 ++ dot_text 10 0 ++ dot_text 5 5))
            (Output [] [])).2 = []
  ∧ ∃ e, (run (main (dot_text 0 0 ++ dot_text 10 0 ++ dot_text 5 5))
            (Output [] [])).1 = Raise e ∧ e ≠ SystemExit.
Proof.
  apply (main_fewer_than_fifteen
           (dot_text 0 0 ++ dot_text 10 0 ++ dot_text 5 5) (Output [] [])).
  intros gs o' Hrun. vm_compute in Hrun. injection Hrun as <- _.
  vm_compute. lia.
Defined.

(** X18: a line with a single field, or with two fields of which the
    second is an integer, anywhere in the input makes the script end
    with [IndexError] before it has written anything, to the command
    stream or to the diagnostics. *)
Theorem main_short_line (input : list string) (line : string) (o : output) :
  line ∈ input →
  Instruction.__init__ line = Raise IndexError →
  run (main input) o = (Raise IndexError, o).
Proof.
  intros Hin Hline. unfold main, read_glyphs. rewrite run_bind, run_bind.
  destruct (read_instructions_run input o)
    as [(insts & _ & Hall)|[-> _]]; [|done].
  apply list_elem_of_lookup in Hin as [k Hk].
  destruct (Forall2_lookup_l _ _ _ _ _ Hall Hk) as (i & _ & Hi). congruence.
Qed.

Lemma main_short_line_witness :
  run (main (dot_text 0 0 ++ [Glyph.newline] ++ dot_text 5 5)) (Output [] [])
  = (Raise IndexError, Output [] []).
Proof.
  apply (main_short_line _ Glyph.newline); [|reflexivity].
  apply elem_of_app. right. by left.
Defined.

Lemma run_report (label : string) (d : Z) (o : output) :
  run (report label (Ok d)) o
  = (Ok tt, Output (stdout o) (stderr o ++ [label +:+ pretty d])).
Proof. reflexivity. Qed.

Lemma total_penup_travel_drawable (gs : list Glyph.t) :
  Forall drawable gs → ∃ n, total_penup_travel gs = Ok n.
Proof.
  intros Hall. unfold total_penup_travel, distance_between_each_pair, distances.
  destruct gs as [|prev rest]; [by exists 0|].
  destruct (glyph_distances_from rest prev)
    as [(ds & -> & _)|[_ (i & g & h & Hg & Hh & Hbad)]]; [by eexists|].
  rewrite Forall_forall in Hall.
  destruct (Hall g) as ([e He] & [s Hs] & _);
    [by eapply list_elem_of_lookup_2|].
  destruct (Hall h) as ([e' He'] & [s' Hs'] & _);
    [by eapply list_elem_of_lookup_2|].
  destruct Hbad; congruence.
Qed.

Lemma iter_moves_drawable (gs : list Glyph.t) :
  Forall drawable gs →
  Forall (λ m, is_Some (Instruction.coords m)) (iter_moves gs).
Proof.
  intros Hall. unfold iter_moves. apply Forall_bind.
  eapply Forall_impl; [exact Hall|]. intros g (_ & _ & Hmoves).
  apply Forall_forall. intros m [Hmove Hm]%list_elem_of_filter.
  rewrite Forall_forall in Hmoves. by apply Hmoves.
Qed.

Lemma total_travel_drawable (gs : list Glyph.t) :
  Forall drawable gs → ∃ n, total_travel gs = Ok n.
Proof.
  intros Hall%iter_moves_drawable.
  unfold total_travel, distance_between_moves, distances.
  destruct (iter_moves gs) as [|a ms]; [by exists 0|].
  destruct (move_distances_from_outcome ms a) as [(ds & -> & _)|Hraise];
    [by eexists|].
  destruct ms as [|b ms]; [done|].
  destruct (classic_moves a (b :: ms)) as [_|(m & Hm & Hnone)].
  - pose proof Hall as Hall'. apply Forall_cons in Hall' as [[p Hp] _].
    destruct (lookup_lt_is_Some_2 (a :: b :: ms) (length (b :: ms)))
      as [z Hz]; [simpl; lia|].
    assert (Hlast : last (a :: b :: ms) = Some z) by by rewrite last_lookup.
    rewrite Forall_forall in Hall.
    destruct (Hall z) as [q Hq]; [by eapply list_elem_of_lookup_2|].
    destruct (move_distances_from (b :: ms) a p z q) as (ds & Hds & _);
      [by apply Forall_forall|done..|congruence].
  - rewrite Forall_forall in Hall. destruct (Hall m Hm). congruence.
Qed.

(** From fifteen glyphs on the first probe starts at [0]. *)
Lemma range_first (n : Z) :
  15 ≤ n → ∃ rest, Py.range 0 n (n `div` 15) = Ok (0 :: rest).
Proof.
  intros Hn. unfold Py.range.
  assert (Hstep : 0 < n `div` 15) by (apply Z.div_str_pos; lia).
  destruct (n `div` 15 =? 0) eqn:Hz; [lia|].
  destruct (0 <? n `div` 15) eqn:Hp; [|lia].
  assert (Hcount : 0 < (n - 0 + n `div` 15 - 1) `div` (n `div` 15)).
  { apply Z.div_str_pos. lia. }
  destruct (Z.to_nat _) as [|k] eqn:Hk; [lia|]. simpl. eauto.
Qed.

(** X19: a script fed with an input whose glyphs are all drawable, of
    which fifteen or more are left after deduplication, runs one greedy
    probe, from the first glyph, and exits through [sys.exit]: the
    command stream receives [C14,END] and then the lines of the greedy
    ordering, which is a permutation of the deduplicated glyphs that
    begins with the first of them. *)
Theorem main_greedy_output (input : list string) (gs : list Glyph.t)
    (o o1 : output) :
  run (read_glyphs input) o = (Ok gs, o1) →
  Forall drawable gs →
  (15 ≤ length (dedupe gs))%nat →
  ∃ first rest o',
    run (main input) o = (Raise SystemExit, o')
    ∧ reorder_greedy_boxed (dedupe gs) 0 = Ok (first :: rest)
    ∧ head (dedupe gs) = Some first
    ∧ first :: rest ≡ₚ dedupe gs
    ∧ stdout o'
      = stdout o ++ "C14,END" :: ((first :: rest) ≫= Glyph.lines).
Proof.
  intros Hread Hall Hlen.
  set (ds := dedupe gs) in *.
  assert (Hds : Forall drawable ds).
  { unfold ds. rewrite dedupe_by_hash.
    apply Forall_forall. intros g Hg. rewrite Forall_forall in Hall.
    apply Hall. eapply elem_of_sublist; [exact Hg|].
    apply first_occurrences_sublist. }
  set (ss := Py.sorted Py.coords_le Glyph.start ds).
  assert (Hss : Forall drawable ss).
  { unfold ss. by rewrite sorted_perm. }
  destruct (reorder_greedy_boxed_perm ds 0) as (first & rest & Hgreedy & Hperm & Hget).
  { eapply Forall_impl; [exact Hds|]. by intros g (? & ? & _). }
  { lia. }
  assert (Hgs : Forall drawable (first :: rest)) by by rewrite Hperm.
  destruct (total_penup_travel_drawable gs Hall) as [n1 Hn1].
  destruct (total_travel_drawable gs Hall) as [n2 Hn2].
  destruct (total_penup_travel_drawable ds Hds) as [n3 Hn3].
  destruct (total_travel_drawable ds Hds) as [n4 Hn4].
  destruct (total_penup_travel_drawable ss Hss) as [n5 Hn5].
  destruct (total_travel_drawable ss Hss) as [n6 Hn6].
  destruct (total_penup_travel_drawable _ Hgs) as [n7 Hn7].
  destruct (total_travel_drawable _ Hgs) as [n8 Hn8].
  destruct (range_first (Z.of_nat (length ds))) as [starts Hrange]; [lia|].
  destruct (calm_read_glyphs input o) as [Hout _].
  rewrite Hread in Hout. simpl in Hout.
  eexists first, rest, _. split_and!; [|done| |done|].
  - unfold main. rewrite run_bind, Hread.
    rewrite run_bind, run_eprint.
    fold ds. fold ss.
    rewrite run_bind, Hn1, run_report.
    rewrite run_bind, Hn2, run_report.
    rewrite run_bind, Hn3, run_report.
    rewrite run_bind, Hn4, run_report.
    rewrite run_bind, Hn5, run_report.
    rewrite run_bind, Hn6, run_report.
    rewrite run_bind, run_lift, Hrange.
    cbn [for_]. rewrite run_bind, run_bind, run_lift, Hgreedy.
    rewrite run_bind, Hn7, run_report.
    rewrite run_bind, Hn8, run_report.
    rewrite run_bind, print_glyphs_run. rewrite run_raise. reflexivity.
  - rewrite getitem_nonneg in Hget by lia.
    change (Z.to_nat 0) with 0%nat in Hget. rewrite head_lookup.
    by destruct (ds !! 0%nat); [injection Hget as ->|].
  - simpl. by rewrite Hout.
Qed.

Lemma drawable_dot (x y : Z) : drawable (dot x y).
Proof.
  split_and!; [by exists (x, y)..|].
  unfold dot. repeat apply Forall_cons_2; [| | | |apply Forall_nil_2];
    simpl; intros Hmove; (by exists (x, y)) || discriminate Hmove.
Qed.

Lemma main_greedy_output_witness :
  ∃ first rest o',
    run (main sixteen_dots_text) (Output [] []) = (Raise SystemExit, o')
    ∧ reorder_greedy_boxed (dedupe sixteen_dots) 0 = Ok (first :: rest)
    ∧ head (dedupe sixteen_dots) = Some first
    ∧ first :: rest ≡ₚ dedupe sixteen_dots
    ∧ stdout o'
      = stdout (Output [] [])
        ++ "C14,END" :: ((first :: rest) ≫= Glyph.lines).
Proof.
  apply (main_greedy_output sixteen_dots_text sixteen_dots
           (Output [] []) (Output [] [])).
  - by vm_compute.
  - apply Forall_fmap, Forall_forall. intros k _. apply drawable_dot.
  - vm_compute. lia.
Defined.

(** ** The exceptions of reorder_greedy *)





